(** * GalEngine: the scene interpreter of gal.js

    A shallow embedding of the [GalEngine] class of [src/gal.js]: the
    program counter and instruction dispatcher ([next], [_execute]), the
    label index ([_indexLabels], [jumpToLabel]), the typewriter
    ([_typeText]) and the choice buttons ([_cmdChoice]), together with the
    browser's timer queue on which the engine schedules its continuations.

    Conventions of the embedding.
    - A script entry is a value of the tagged union [cmd]. A string field
      that is absent in the JavaScript object is the empty string (JavaScript
      treats both as falsy and the engine only ever tests such fields for
      truthiness); a numeric field that may be absent is an [option nat],
      so that an explicit [0] and an absent field stay distinct.
    - Every closure the engine hands to [setTimeout] is a value of
      [closure]; the callback [_cmdSay] passes to [_typeText] is a value of
      [say_callback]. Both record the variables the JavaScript closure captures.
    - [this.next()] is always called in tail position. The mutual recursion
      between [next], [_execute] and the command handlers is written with
      the continuation [this_next] as a parameter and closed by the fuel
      of [next]; running out of fuel stands for the exhaustion of the
      JavaScript call stack. A call ends by returning, by exhausting the
      stack or by throwing; nothing in the engine catches an exception, so
      the engine is left in the state reached so far.
    - [this.labels] and the three resource tables are plain JavaScript
      objects. A finite map holds their own properties; reading them also
      finds the members they inherit from [Object.prototype]
      ([inherited]), as [id in this.labels] and [table[id]] do. A table
      handed to [load] has no own property [__proto__], which an object
      literal cannot create.
    - The DOM tree of the sprite layer and the audio element belong to the
      presentation layer: the requests the engine makes of them are
      recorded in [port], whether or not the element they address exists,
      and the timeout by which [_hideChar] detaches a faded sprite, whose
      closure touches nothing but that DOM node, is left to that layer.
      [console.warn] calls are recorded in [console]. Both lists grow at
      the head.
    - Time is counted in ms. A timeout's closure runs when it is due, and
      the synchronous code of one turn takes no time. *)

From stdpp Require Import strings gmap list relations sorting.

(** ** Script data *)

(** One entry of [cmd.choices]. [callback] names the optional user function
    [ch.callback]; it is opaque to the engine. *)
Record choice := mkChoice {
  text : string;
  goto : string;
  callback : option nat
}.

(** A script instruction, by its [type] tag. [Unknown] is an object whose
    [type] the dispatcher does not know, [Untyped] an object without a
    [type], [Null] an entry that is [null] or [undefined]. *)
Inductive cmd :=
| Say (who name text : string)
| Bg (show : option bool) (src : string) (wait : option nat)
| Char (id action state side : string) (wait : option nat)
| Choice (choices : list choice)
| Wait (ms : option nat)
| Label (id : string)
| Jump (to : string)
| Bgm (action id : string) (loop : bool)
| End
| Unknown (type : string)
| Untyped
| Null.

(** ** Resources *)

(** An entry of the character table: an object with a [name] and a table
    of [states], in the order of its keys. *)
Record char_res := mkCharRes {
  name : string;
  states : list (string * string)
}.

Record resource_table := mkResources {
  characters : gmap string char_res;
  backgrounds : gmap string string;
  bgm : gmap string string
}.

(** ** What plain objects inherit *)

(** The property names every plain object inherits from [Object.prototype]. *)
Definition object_prototype_names : list string :=
  ["constructor"; "__defineGetter__"; "__defineSetter__"; "hasOwnProperty";
   "__lookupGetter__"; "__lookupSetter__"; "isPrototypeOf";
   "propertyIsEnumerable"; "toString"; "valueOf"; "__proto__";
   "toLocaleString"].

Definition inherited (id : string) : bool :=
  existsb (String.eqb id) object_prototype_names.

(** The [.name] of the inherited member, as a text box shows it: the
    functions carry their own name, [constructor] is [Object], and
    [__proto__] is an object without a name. *)
Definition inherited_name (id : string) : string :=
  if (id =? "constructor")%string then "Object"
  else if (id =? "__proto__")%string then ""
  else id.

(** ** Values *)

(** The value of [this.pc]: a number; the string [labels[id] + 1] makes of
    an inherited member; or [NaN], which [pc++] makes of such a string. *)
Inductive pcval :=
| PcNum (n : nat)
| PcText (id : string)
| PcNaN.

Coercion PcNum : nat >-> pcval.

(** What a resource table yields for an id: a string, or the inherited
    member of that name. *)
Inductive asset :=
| Literal (s : string)
| Member (id : string).

(** ** Closures *)

(** The arrow function [_cmdSay] passes to [_typeText]; it captures
    [hasChoiceAfter] and [hasEndAfter]. *)
Inductive say_callback :=
| SayDone (hasChoiceAfter hasEndAfter : bool).

(** A function given to [setTimeout]: [() => this.next()], or the [tick]
    closure of [_typeText] with its captured [text], [cb] and the current
    value of its counter [i]. *)
Inductive closure :=
| KNext
| KTick (text : string) (i : nat) (cb : say_callback).

(** ** Observable effects *)

Inductive warning :=
| LabelNotFound (id : string)
| UnknownCmd (type : string)
| UnknownCharAction (action : string)
| CharUndefined (id : string)
| BgmPlayFailed.

Inductive request :=
| ShowChar (id : string) (state : option string) (side : string)
| HideChar (id : string)
| SetCharState (id state : string)
| AudioPlay (url : asset) (loop : bool)
| AudioStop
| AudioPause
| ChoiceCallback (f : nat).

(** ** Engine state *)

Record engine := mkEngine {
  transition : nat;                  (* options.transition *)
  resources : resource_table;
  script : list cmd;
  labels : gmap string nat;          (* own properties of this.labels *)
  pc : pcval;
  running : bool;
  bgVisible : bool;                  (* state.bgVisible *)
  bgImage : asset;                   (* bgLayer.style.backgroundImage *)
  state_bgm : option string;         (* state.bgm *)
  nameLabel : string;                (* nameLabel.textContent *)
  textContent : string;              (* textContent.textContent *)
  choiceBox : list choice;           (* the buttons inside choiceBox *)
  _waitingForClick : bool;
  _endOnClick : bool;                (* whether a handler is stored *)
  now : nat;                         (* clock, in ms *)
  timers : list (nat * closure);     (* pending timeouts, by due time *)
  console : list warning;
  port : list request
}.

Definition set_resources (v : resource_table) (e : engine) : engine :=
  mkEngine (transition e) v (script e) (labels e) (pc e) (running e)
    (bgVisible e) (bgImage e) (state_bgm e) (nameLabel e) (textContent e)
    (choiceBox e) (_waitingForClick e) (_endOnClick e) (now e) (timers e)
    (console e) (port e).

Definition set_script (v : list cmd) (e : engine) : engine :=
  mkEngine (transition e) (resources e) v (labels e) (pc e) (running e)
    (bgVisible e) (bgImage e) (state_bgm e) (nameLabel e) (textContent e)
    (choiceBox e) (_waitingForClick e) (_endOnClick e) (now e) (timers e)
    (console e) (port e).

Definition set_labels (v : gmap string nat) (e : engine) : engine :=
  mkEngine (transition e) (resources e) (script e) v (pc e) (running e)
    (bgVisible e) (bgImage e) (state_bgm e) (nameLabel e) (textContent e)
    (choiceBox e) (_waitingForClick e) (_endOnClick e) (now e) (timers e)
    (console e) (port e).

Definition set_pc (v : pcval) (e : engine) : engine :=
  mkEngine (transition e) (resources e) (script e) (labels e) v (running e)
    (bgVisible e) (bgImage e) (state_bgm e) (nameLabel e) (textContent e)
    (choiceBox e) (_waitingForClick e) (_endOnClick e) (now e) (timers e)
    (console e) (port e).

Definition set_running (v : bool) (e : engine) : engine :=
  mkEngine (transition e) (resources e) (script e) (labels e) (pc e) v
    (bgVisible e) (bgImage e) (state_bgm e) (nameLabel e) (textContent e)
    (choiceBox e) (_waitingForClick e) (_endOnClick e) (now e) (timers e)
    (console e) (port e).

Definition set_bgVisible (v : bool) (e : engine) : engine :=
  mkEngine (transition e) (resources e) (script e) (labels e) (pc e)
    (running e) v (bgImage e) (state_bgm e) (nameLabel e) (textContent e)
    (choiceBox e) (_waitingForClick e) (_endOnClick e) (now e) (timers e)
    (console e) (port e).

Definition set_bgImage (v : asset) (e : engine) : engine :=
  mkEngine (transition e) (resources e) (script e) (labels e) (pc e)
    (running e) (bgVisible e) v (state_bgm e) (nameLabel e) (textContent e)
    (choiceBox e) (_waitingForClick e) (_endOnClick e) (now e) (timers e)
    (console e) (port e).

Definition set_state_bgm (v : option string) (e : engine) : engine :=
  mkEngine (transition e) (resources e) (script e) (labels e) (pc e)
    (running e) (bgVisible e) (bgImage e) v (nameLabel e) (textContent e)
    (choiceBox e) (_waitingForClick e) (_endOnClick e) (now e) (timers e)
    (console e) (port e).

Definition set_nameLabel (v : string) (e : engine) : engine :=
  mkEngine (transition e) (resources e) (script e) (labels e) (pc e)
    (running e) (bgVisible e) (bgImage e) (state_bgm e) v (textContent e)
    (choiceBox e) (_waitingForClick e) (_endOnClick e) (now e) (timers e)
    (console e) (port e).

Definition set_textContent (v : string) (e : engine) : engine :=
  mkEngine (transition e) (resources e) (script e) (labels e) (pc e)
    (running e) (bgVisible e) (bgImage e) (state_bgm e) (nameLabel e) v
    (choiceBox e) (_waitingForClick e) (_endOnClick e) (now e) (timers e)
    (console e) (port e).

Definition set_choiceBox (v : list choice) (e : engine) : engine :=
  mkEngine (transition e) (resources e) (script e) (labels e) (pc e)
    (running e) (bgVisible e) (bgImage e) (state_bgm e) (nameLabel e)
    (textContent e) v (_waitingForClick e) (_endOnClick e) (now e) (timers e)
    (console e) (port e).

Definition set_waitingForClick (v : bool) (e : engine) : engine :=
  mkEngine (transition e) (resources e) (script e) (labels e) (pc e)
    (running e) (bgVisible e) (bgImage e) (state_bgm e) (nameLabel e)
    (textContent e) (choiceBox e) v (_endOnClick e) (now e) (timers e)
    (console e) (port e).

Definition set_endOnClick (v : bool) (e : engine) : engine :=
  mkEngine (transition e) (resources e) (script e) (labels e) (pc e)
    (running e) (bgVisible e) (bgImage e) (state_bgm e) (nameLabel e)
    (textContent e) (choiceBox e) (_waitingForClick e) v (now e) (timers e)
    (console e) (port e).

Definition set_now (v : nat) (e : engine) : engine :=
  mkEngine (transition e) (resources e) (script e) (labels e) (pc e)
    (running e) (bgVisible e) (bgImage e) (state_bgm e) (nameLabel e)
    (textContent e) (choiceBox e) (_waitingForClick e) (_endOnClick e) v
    (timers e) (console e) (port e).

Definition set_timers (v : list (nat * closure)) (e : engine) : engine :=
  mkEngine (transition e) (resources e) (script e) (labels e) (pc e)
    (running e) (bgVisible e) (bgImage e) (state_bgm e) (nameLabel e)
    (textContent e) (choiceBox e) (_waitingForClick e) (_endOnClick e) (now e)
    v (console e) (port e).

Definition set_console (v : list warning) (e : engine) : engine :=
  mkEngine (transition e) (resources e) (script e) (labels e) (pc e)
    (running e) (bgVisible e) (bgImage e) (state_bgm e) (nameLabel e)
    (textContent e) (choiceBox e) (_waitingForClick e) (_endOnClick e) (now e)
    (timers e) v (port e).

Definition set_port (v : list request) (e : engine) : engine :=
  mkEngine (transition e) (resources e) (script e) (labels e) (pc e)
    (running e) (bgVisible e) (bgImage e) (state_bgm e) (nameLabel e)
    (textContent e) (choiceBox e) (_waitingForClick e) (_endOnClick e) (now e)
    (timers e) (console e) v.


(** The result of a call: it returned, the call stack was exhausted on the
    way, or an exception was thrown; in each case the engine is left in some
    state. For an exhausted stack the state kept is the one in which the
    innermost call of [next] was entered; the stack of the code may give out
    a few statements further into that call. *)
Inductive completion :=
| Returned (e : engine)
| Overflow (e : engine)
| Threw (e : engine).

Definition state_of (c : completion) : engine :=
  match c with Returned e => e | Overflow e => e | Threw e => e end.

(** The rest of a function body after a call that may not return. *)
Definition and_then (c : completion) (k : engine → completion)
  : completion :=
  match c with
  | Returned e => k e
  | _ => c
  end.

(** ** JavaScript idioms *)

Definition truthy (s : string) : bool := negb (s =? "")%string.

(** [a || b] on strings. *)
Definition or_str (a b : string) : string := if truthy a then a else b.

(** [v || d] on an optional number: [undefined] and [0] both give [d]. *)
Definition or_num (v : option nat) (d : nat) : nat :=
  match v with
  | Some (S n) => S n
  | _ => d
  end.

(** [table[id] || id] on a table of strings: an own entry, or the member
    the table inherits under that name, or the id itself. *)
Definition lookup_asset (table : gmap string string) (id : string) : asset :=
  match table !! id with
  | Some url => Literal (or_str url id)
  | None => if inherited id then Member id else Literal id
  end.

Definition warn (w : warning) (e : engine) : engine :=
  set_console (w :: console e) e.

Definition emit (r : request) (e : engine) : engine :=
  set_port (r :: port e) e.

(** ** The timer queue *)

(** Pending timeouts are kept in firing order: by due time, and among equal
    due times in the order they were set. *)
Fixpoint enqueue (t : nat * closure) (q : list (nat * closure))
  : list (nat * closure) :=
  match q with
  | [] => [t]
  | u :: q' => if u.1 <=? t.1 then u :: enqueue t q' else t :: q
  end.

Definition setTimeout (k : closure) (delay : nat) (e : engine) : engine :=
  set_timers (enqueue (now e + delay, k) (timers e)) e.

(** ** The constructor and [load] *)

Definition GalEngine (transition : nat) : engine :=
  mkEngine transition (mkResources ∅ ∅ ∅) [] ∅ 0 false
    true (Literal "") None "" "" [] false false 0 [] [] [].





(** ** Label index *)

(** The body of the [forEach] callback: [cmd] is the entry at offset [i].
    The assignment [this.labels[id] = i] creates an own property, except
    for [__proto__], where it reaches the inherited setter, which ignores
    a number. *)
Definition index_entry (m : gmap string nat) (ic : nat * cmd)
  : gmap string nat :=
  match ic.2 with
  | Label id =>
      if truthy id then
        if (id =? "__proto__")%string then m else <[id := ic.1]> m
      else m
  | _ => m
  end.

Definition is_null (c : cmd) : bool :=
  match c with Null => true | _ => false end.

(** The entries in front of the first [null] one. *)
Fixpoint before_null (cs : list cmd) : list cmd :=
  match cs with
  | [] => []
  | c :: cs' => if is_null c then [] else c :: before_null cs'
  end.

(** [_indexLabels] reads [cmd.type] of every entry: at a [null] entry that
    throws, with the labels in front of it indexed. *)
Definition _indexLabels (e : engine) : completion :=
  let e' :=
    set_labels (foldl index_entry ∅ (imap pair (before_null (script e)))) e in
  if existsb is_null (script e) then Threw e' else Returned e'.

(** [id in this.labels] holds for an own property and for an inherited
    member; [this.labels[id] + 1] is a number for the first and a string
    for the second. *)
Definition jumpToLabel (id : string) (e : engine) : engine :=
  match labels e !! id with
  | Some i => set_pc (S i) e
  | None =>
      if inherited id then set_pc (PcText id) e
      else warn (LabelNotFound id) e
  end.

(** ** Command handlers

    [this_next] stands for the method [this.next]. *)

Definition end_text : string := "[游戏结束]".

Definition _onEnd (e : engine) : engine :=
  set_textContent end_text (set_nameLabel "" e).

(** The body of the callback [_cmdSay] builds. *)
Definition run_callback (this_next : engine → completion)
    (cb : say_callback) (e : engine) : completion :=
  match cb with
  | SayDone hasChoiceAfter hasEndAfter =>
      if hasChoiceAfter then this_next e
      else if hasEndAfter then
        Returned (set_endOnClick true (set_waitingForClick true e))
      else Returned (set_waitingForClick true e)
  end.

(** One call of the closure [tick] whose counter stands at [i]. *)
Definition tick (this_next : engine → completion)
    (text : string) (i : nat) (cb : say_callback) (e : engine) : completion :=
  if String.length text <=? i then run_callback this_next cb e
  else
    Returned (setTimeout (KTick text (S i) cb) 16
                (set_textContent (String.substring 0 (S i) text) e)).

Definition _typeText (this_next : engine → completion)
    (text : string) (cb : say_callback) (e : engine) : completion :=
  tick this_next text 0 cb (set_textContent "" (set_choiceBox [] e)).

(** [this.script[this.pc]]: [undefined] beyond the script and for a [pc]
    that is not a number. *)
Definition script_at_pc (e : engine) : option cmd :=
  match pc e with
  | PcNum n => script e !! n
  | _ => None
  end.

(** [who && characters[who] ? characters[who].name : (cmd.name || '')]. *)
Definition speaker (who nm : string) (e : engine) : string :=
  if truthy who then
    match characters (resources e) !! who with
    | Some c => name c
    | None => if inherited who then inherited_name who else nm
    end
  else nm.

Definition _cmdSay (this_next : engine → completion)
    (who nm text : string) (e : engine) : completion :=
  let e := set_nameLabel (speaker who nm e) e in
  let nextCmd := script_at_pc e in
  let hasChoiceAfter :=
    match nextCmd with Some (Choice _) => true | _ => false end in
  let hasEndAfter :=
    match nextCmd with Some End => true | _ => false end in
  _typeText this_next text (SayDone hasChoiceAfter hasEndAfter) e.

Definition _setBgImage (url : asset) (e : engine) : engine :=
  set_bgImage url e.

Definition _cmdBg (show : option bool) (src : string) (wait : option nat)
    (e : engine) : engine :=
  let e := match show with Some b => set_bgVisible b e | None => e end in
  let e :=
    if truthy src then
      _setBgImage (lookup_asset (backgrounds (resources e)) src) e
    else e in
  setTimeout KNext (or_num wait (transition e)) e.

(** [resChar.states[state]] throws when [resChar] is an inherited member,
    which has no [states]. *)
Definition _showChar (id : string) (state : option string) (side : string)
    (e : engine) : completion :=
  match characters (resources e) !! id with
  | Some _ => Returned (emit (ShowChar id state side) e)
  | None =>
      if inherited id then Threw e
      else Returned (warn (CharUndefined id) e)
  end.

Definition _hideChar (id : string) (e : engine) : engine :=
  emit (HideChar id) e.

Definition _setCharState (id state : string) (e : engine) : completion :=
  match characters (resources e) !! id with
  | Some _ => Returned (emit (SetCharState id state) e)
  | None =>
      if inherited id then Threw e
      else Returned (warn (CharUndefined id) e)
  end.

(** [cmd.state || Object.keys(states)[0] || null]. *)
Definition show_state (state : string) (r : option char_res) : option string :=
  if truthy state then Some state
  else
    match r with
    | Some c =>
        match states c with
        | (k, _) :: _ => if truthy k then Some k else None
        | [] => None
        end
    | None => None
    end.

Definition _cmdChar (this_next : engine → completion)
    (id action state side : string) (wait : option nat) (e : engine)
  : completion :=
  if negb (truthy id) then this_next e
  else
    let action := or_str action "show" in
    let delay := or_num wait (transition e) in
    if (action =? "show")%string then
      let st := show_state state (characters (resources e) !! id) in
      and_then (_showChar id st (or_str side "center") e)
        (λ e, Returned (setTimeout KNext delay e))
    else if (action =? "hide")%string then
      Returned (setTimeout KNext delay (_hideChar id e))
    else if (action =? "setState")%string then
      and_then (_setCharState id state e)
        (λ e, Returned (setTimeout KNext delay e))
    else this_next (warn (UnknownCharAction action) e).

Definition _cmdChoice (choices : list choice) (e : engine) : engine :=
  set_choiceBox choices (set_choiceBox [] e).

Definition _cmdBgm (action id : string) (loop : bool) (e : engine) : engine :=
  let action := or_str action "play" in
  let e :=
    if (action =? "play")%string then
      let url := lookup_asset (bgm (resources e)) id in
      set_state_bgm (Some id) (emit (AudioPlay url loop) e)
    else if (action =? "stop")%string then
      set_state_bgm None (emit AudioStop e)
    else if (action =? "pause")%string then emit AudioPause e
    else e in
  setTimeout KNext 100 e.


(** ** Dispatcher *)

Definition _execute (this_next : engine → completion) (c : cmd) (e : engine)
  : completion :=
  match c with
  | Null | Untyped => this_next e
  | Say who nm text => _cmdSay this_next who nm text e
  | Bg show src wait => Returned (_cmdBg show src wait e)
  | Char id action state side wait =>
      _cmdChar this_next id action state side wait e
  | Choice choices => Returned (_cmdChoice choices e)
  | Wait ms => Returned (setTimeout KNext (or_num ms 500) e)
  | Label _ => this_next e
  | Jump to =>
      if truthy to then this_next (jumpToLabel to e) else this_next e
  | Bgm action id loop => Returned (_cmdBgm action id loop e)
  | End => Returned (_onEnd (set_running false e))
  | Unknown ty => this_next (warn (UnknownCmd ty) e)
  end.

(** [this.pc >= this.script.length]: false for a [pc] that is not a
    number. *)
Definition at_end (e : engine) : bool :=
  match pc e with
  | PcNum n => length (script e) <=? n
  | _ => false
  end.

(** [this.script[this.pc++]]: for a [pc] that is not a number the entry is
    [undefined] and [pc] becomes [NaN]. *)
Definition fetched (e : engine) : cmd :=
  default Null (script_at_pc e).

Definition advanced (e : engine) : engine :=
  match pc e with
  | PcNum n => set_pc (S n) e
  | _ => set_pc PcNaN e
  end.

Fixpoint next (fuel : nat) (e : engine) : completion :=
  match fuel with
  | 0 => Overflow e
  | S fuel' =>
      if negb (running e) then Returned e
      else if at_end e then Returned (set_running false e)
      else _execute (next fuel') (fetched e) (advanced e)
  end.

(** ** Public API and event handlers *)

Definition start (fuel : nat) (scr : list cmd) (e : engine) : completion :=
  and_then (_indexLabels (set_script scr e))
    (λ e, next fuel (set_running true (set_pc 0 e))).

Definition playScript (fuel : nat) (scr : list cmd) (e : engine)
  : completion :=
  start fuel scr e.

Definition stop (e : engine) : engine := set_running false e.

(** The container's click listener [_onClick]. *)
Definition _onClick (fuel : nat) (e : engine) : completion :=
  match choiceBox e with
  | [] => next fuel e
  | _ :: _ => Returned e
  end.

(** The click listener of the [i]-th choice button. *)
Definition choose (fuel : nat) (i : nat) (e : engine) : completion :=
  match choiceBox e !! i with
  | None => Returned e
  | Some ch =>
      let e := set_choiceBox [] e in
      let e :=
        match callback ch with
        | Some f => emit (ChoiceCallback f) e
        | None => e
        end in
      if truthy (goto ch) then next fuel (jumpToLabel (goto ch) e)
      else next fuel e
  end.

(** A click on the [i]-th choice button: its own listener runs, and then,
    as the event bubbles on to the container, [_onClick]. *)
Definition click_button (fuel : nat) (i : nat) (e : engine) : completion :=
  match choiceBox e !! i with
  | None => Returned e
  | Some _ => _onClick fuel (state_of (choose fuel i e))
  end.

(** ** The event loop *)

Definition run_closure (this_next : engine → completion)
    (k : closure) (e : engine) : completion :=
  match k with
  | KNext => this_next e
  | KTick text i cb => tick this_next text i cb e
  end.

(** One turn: the earliest pending timeout is taken off the queue and its
    closure runs, on a fresh stack, at its due time. *)
Definition fire (fuel : nat) (e : engine) : completion :=
  match timers e with
  | [] => Returned e
  | (d, k) :: q => run_closure (next fuel) k (set_timers q (set_now d e))
  end.

(** [n] turns of the event loop with no external event in between. *)
Fixpoint turns (n : nat) (fuel : nat) (e : engine) : engine :=
  match n with
  | 0 => e
  | S n' => turns n' fuel (state_of (fire fuel e))
  end.

(** * Vocabulary of the properties *)

(** The script of the specification's example: label [A] at offsets 0 and
    7, label [B] at offset 3. *)
Definition labels_ABA : list cmd :=
  [Label "A"; Wait None; Wait None; Label "B";
   Wait None; Wait None; Wait None; Label "A"].

(** A label with the id [__proto__] and a jump to it. *)
Definition proto_loop : list cmd := [Label "__proto__"; Jump "__proto__"].

(** The actions [_cmdChar] knows; an absent action stands for [show]. *)
Definition known_char_action (action : string) : bool :=
  let a := or_str action "show" in
  ((a =? "show") || (a =? "hide") || (a =? "setState"))%string.

(** The script, the label index, the configuration and the clock are only
    written by [start], [load] and the event loop. *)
Definition same_program (e e' : engine) : Prop :=
  script e' = script e ∧ labels e' = labels e
  ∧ transition e' = transition e ∧ resources e' = resources e
  ∧ now e' = now e.

(** The ways [pc] is written while a script runs. The fetch in [next]
    increments it: a number inside the script moves one forward, a value
    that is not a number becomes [NaN]. A [jump] that has just been fetched,
    or the [goto] of a displayed choice, sets it: to the offset after the
    indexed label, or, for a target the label index only inherits, to a
    text. *)
Inductive pc_step (scr : list cmd) (lbl : gmap string nat)
    (buttons : list choice) : pcval → pcval → Prop :=
| pc_fetch (p : nat) :
    p < length scr → pc_step scr lbl buttons p (S p)
| pc_fetch_text id :
    pc_step scr lbl buttons (PcText id) PcNaN
| pc_fetch_nan :
    pc_step scr lbl buttons PcNaN PcNaN
| pc_jump (j : nat) to (i : nat) :
    scr !! j = Some (Jump to) → lbl !! to = Some i →
    pc_step scr lbl buttons (S j) (S i)
| pc_jump_member (j : nat) to :
    scr !! j = Some (Jump to) → lbl !! to = None → inherited to = true →
    pc_step scr lbl buttons (S j) (PcText to)
| pc_goto p ch (i : nat) :
    ch ∈ buttons → lbl !! goto ch = Some i →
    pc_step scr lbl buttons p (S i)
| pc_goto_member p ch :
    ch ∈ buttons → lbl !! goto ch = None → inherited (goto ch) = true →
    pc_step scr lbl buttons p (PcText (goto ch)).

(** [pc] gets from its value in [e] to its value in [e'] by such writes. *)
Definition pc_moves (e e' : engine) : Prop :=
  rtc (pc_step (script e) (labels e) (choiceBox e)) (pc e) (pc e').

(** Suspended after a completed reveal: nothing is scheduled, no choice is
    displayed, and the [say] callback has raised its flag. *)
Definition AwaitingAdvance (e : engine) : Prop :=
  running e = true ∧ choiceBox e = [] ∧ timers e = []
  ∧ _waitingForClick e = true.


(** The run is over: [end] was executed, the script ran out, or [stop]
    was called. *)
Definition Ended (e : engine) : Prop := running e = false.


(** Sample data for the instances below. *)
Definition two_buttons : list choice :=
  [mkChoice "yes" "go" None; mkChoice "no" "" None].

Definition hello_bye : list cmd :=
  [Say "" "" "hello"; Say "" "" "bye"; End].




Definition a_bcde : list cmd := [Say "" "" "a"; Say "" "" "bcde"; End].



(** Every entry of the label index lies inside the script. *)
Definition labels_in_range (e : engine) : Prop :=
  ∀ id i, labels e !! id = Some i → i < length (script e).

(** A number between 0 and [n]. *)
Definition in_range (n : nat) (v : pcval) : Prop :=
  ∃ p : nat, v = p ∧ p ≤ n.

(** The labels an instruction can send [pc] to: the target of a [jump], the
    [goto]s of the buttons of a [choice]. *)
Definition targets_of (c : cmd) : list string :=
  match c with
  | Jump to => [to]
  | Choice choices => goto <$> choices
  | _ => []
  end.

(** A target the label index does not merely inherit: it is indexed, or
    it is not the name of a member of [Object.prototype]. *)
Definition resolves (lbl : gmap string nat) (id : string) : Prop :=
  inherited id = true → is_Some (lbl !! id).

(** No target in the script or on a displayed button is merely inherited. *)
Definition targets_resolve (e : engine) : Prop :=
  Forall (resolves (labels e))
    ((script e ≫= targets_of) ++ (goto <$> choiceBox e)).

(** The conditions under which [pc] stays inside the script. *)
Definition pc_safe (e : engine) : Prop :=
  labels_in_range e ∧ targets_resolve e
  ∧ in_range (length (script e)) (pc e).

(** The buttons on display after a step are those displayed before it,
    none, or those of a [choice] instruction of the script. *)
Definition buttons_from (e e' : engine) : Prop :=
  choiceBox e' = choiceBox e ∨ choiceBox e' = []
  ∨ Choice (choiceBox e') ∈ script e.

(** A menu that comes back: both buttons lead to the menu again, one by
    its [goto], the other through the [jump] behind the menu. *)
Definition menu_loop : list cmd :=
  [Label "top";
   Choice [mkChoice "again" "top" None; mkChoice "on" "" None];
   Jump "top"].

(** An instruction [_execute] passes over with an immediate [this.next()],
    and the warnings it logs on the way: labels, [null] entries and entries
    without a type, unknown types, a [jump] without target, a [char]
    without id or with an unknown action. *)
Definition skipped (c : cmd) : option (list warning) :=
  match c with
  | Label _ | Untyped | Null => Some []
  | Unknown ty => Some [UnknownCmd ty]
  | Jump to => if truthy to then None else Some []
  | Char id action _ _ _ =>
      if truthy id then
        if known_char_action action then None
        else Some [UnknownCharAction (or_str action "show")]
      else Some []
  | _ => None
  end.

(** The console after a block of such instructions, starting from [log]. *)
Fixpoint skip_log (cs : list cmd) (log : list warning)
  : option (list warning) :=
  match cs with
  | [] => Some log
  | c :: cs' =>
      match skipped c with
      | Some ws => skip_log cs' (ws ++ log)
      | None => None
      end
  end.

(** The engine without its two logs. *)
Definition forget_logs (e : engine) : engine :=
  set_port [] (set_console [] e).

(** Two calls end the same way, in states that differ at most in the console
    and the request log. *)
Definition same_upto_logs (c1 c2 : completion) : Prop :=
  match c1, c2 with
  | Returned a, Returned b | Overflow a, Overflow b | Threw a, Threw b =>
      forget_logs a = forget_logs b
  | _, _ => False
  end.

(** The pending timeouts are in firing order and none is overdue. *)
Definition queue_ok (e : engine) : Prop :=
  StronglySorted (λ u v : nat * closure, u.1 ≤ v.1) (timers e)
  ∧ Forall (λ u, now e ≤ u.1) (timers e).

(** The state a choice button's listener hands to [jumpToLabel] or [next]. *)
Definition chosen (ch : choice) (e : engine) : engine :=
  match callback ch with
  | Some f => emit (ChoiceCallback f) (set_choiceBox [] e)
  | None => set_choiceBox [] e
  end.

(** What a synchronous run does to the queue, whatever the delays are: it
    leaves the clock alone and sets at most one timeout. *)
Definition sets_at_most_one (e e' : engine) : Prop :=
  now e' = now e
  ∧ (timers e' = timers e
     ∨ ∃ δ k, timers e' = enqueue (now e + δ, k) (timers e)).


(** The value [pc] has once [next] has been entered [fuel] times on a [pc]
    that is not a number. *)
Definition lost (fuel : nat) (v : pcval) : pcval :=
  match fuel with
  | 0 => v
  | S _ => PcNaN
  end.

Definition is_number (v : pcval) : bool :=
  match v with PcNum _ => true | _ => false end.

(** * Properties *)

(** ** Fetching *)

Lemma next_S fuel e :
  next (S fuel) e
  = if negb (running e) then Returned e
    else if at_end e then Returned (set_running false e)
    else _execute (next fuel) (fetched e) (advanced e).
Proof. reflexivity. Qed.

Lemma next_not_running (fuel : nat) (e : engine) :
  running e = false → next (S fuel) e = Returned e.
Proof. intros H. simpl. by rewrite H. Qed.

Lemma next_fetch fuel e (p : nat) c :
  running e = true → pc e = p → script e !! p = Some c →
  next (S fuel) e = _execute (next fuel) c (set_pc (S p) e).
Proof.
  intros Hrun Hp Hc. rewrite next_S, Hrun.
  unfold at_end, fetched, advanced, script_at_pc. rewrite Hp, Hc.
  cbn [negb default]. apply lookup_lt_Some in Hc.
  by destruct (Nat.leb_spec (length (script e)) p); [lia|].
Qed.

Lemma set_pc_twice v w e : set_pc v (set_pc w e) = set_pc v e.
Proof. by destruct e. Qed.

Lemma set_pc_same e : set_pc (pc e) e = e.
Proof. by destruct e. Qed.

(** With a [pc] that is not a number, [next] fetches [undefined] for ever:
    the call exhausts the stack, whatever its depth, and writes nothing
    but [pc]. *)
Lemma next_lost fuel e :
  running e = true → is_number (pc e) = false →
  next fuel e = Overflow (set_pc (lost fuel (pc e)) e).
Proof.
  revert e. induction fuel as [|fuel IH]; intros e Hrun Hpc.
  - simpl. by rewrite set_pc_same.
  - rewrite next_S, Hrun. unfold at_end, fetched, advanced, script_at_pc.
    destruct (pc e) eqn:Hv; [done| |]; cbn [negb default _execute].
    all: rewrite IH by done; simpl pc; rewrite set_pc_twice;
      by destruct fuel.
Qed.

(** ** Label index *)

Section LabelIndex.

Implicit Types (l : list cmd) (id : string) (i : nat).

Lemma index_snoc l c :
  foldl index_entry ∅ (imap pair (l ++ [c]))
  = index_entry (foldl index_entry ∅ (imap pair l)) (length l, c).
Proof.
  rewrite imap_app, foldl_app. simpl.
  by rewrite Nat.add_0_r.
Qed.

(** The index maps an id to the offset of the last label carrying it. *)
Lemma index_last l id i :
  truthy id = true →
  id ≠ "__proto__" →
  l !! i = Some (Label id) →
  (∀ j, i < j → l !! j ≠ Some (Label id)) →
  foldl index_entry ∅ (imap pair l) !! id = Some i.
Proof.
  intros Hid Hproto. revert i.
  induction l as [|c l IH] using rev_ind; intros i Hi Hlast.
  - by rewrite lookup_nil in Hi.
  - rewrite index_snoc.
    destruct (decide (i = length l)) as [->|Hne].
    + rewrite lookup_app_r, Nat.sub_diag in Hi by lia.
      injection Hi as ->. unfold index_entry; simpl.
      rewrite Hid. apply String.eqb_neq in Hproto. rewrite Hproto.
      apply lookup_insert_eq.
    + assert (i < length l) as Hlt.
      { apply lookup_lt_Some in Hi. rewrite length_app in Hi.
        simpl in Hi. lia. }
      rewrite lookup_app_l in Hi by done.
      assert (c ≠ Label id) as Hc.
      { intros ->. apply (Hlast (length l)); [done|].
        by rewrite lookup_app_r, Nat.sub_diag by lia. }
      assert (foldl index_entry ∅ (imap pair l) !! id = Some i) as Hrec.
      { apply IH; [done|]. intros j Hj Hlj.
        apply (Hlast j Hj).
        rewrite lookup_app_l; [done|]. by apply lookup_lt_Some in Hlj. }
      unfold index_entry; simpl.
      destruct c as [| | | | |id'| | | | | |]; try done.
      destruct (truthy id'); [|done].
      destruct (id' =? "__proto__")%string; [done|].
      rewrite lookup_insert_ne; [done|]. congruence.
Qed.

(** Every entry of the index is the offset of a label with that id. *)
Lemma index_sound l id i :
  foldl index_entry ∅ (imap pair l) !! id = Some i →
  l !! i = Some (Label id).
Proof.
  revert i. induction l as [|c l IH] using rev_ind; intros i.
  - simpl. by rewrite lookup_empty.
  - rewrite index_snoc. unfold index_entry; simpl.
    assert (∀ i, foldl index_entry ∅ (imap pair l) !! id = Some i →
                 (l ++ [c]) !! i = Some (Label id)) as Hold.
    { intros k Hk. specialize (IH k Hk).
      rewrite lookup_app_l; [done|]. by apply lookup_lt_Some in IH. }
    destruct c as [| | | | |id'| | | | | |]; try apply Hold.
    destruct (truthy id'); [|apply Hold].
    destruct (id' =? "__proto__")%string; [apply Hold|].
    destruct (decide (id' = id)) as [->|Hne].
    + rewrite lookup_insert_eq. intros [= <-].
      by rewrite lookup_app_r, Nat.sub_diag by lia.
    + rewrite lookup_insert_ne by done. apply Hold.
Qed.

(** The assignment never creates an entry [__proto__]. *)
Lemma index_no_proto l :
  foldl index_entry ∅ (imap pair l) !! "__proto__" = None.
Proof.
  induction l as [|c l IH] using rev_ind; [done|].
  rewrite index_snoc. unfold index_entry; simpl.
  destruct c as [| | | | |id'| | | | | |]; try done.
  destruct (truthy id'); [|done].
  destruct (id' =? "__proto__")%string eqn:Heq; [done|].
  apply String.eqb_neq in Heq. by rewrite lookup_insert_ne.
Qed.

Lemma before_null_all l :
  existsb is_null l = false → before_null l = l.
Proof.
  induction l as [|c l IH]; [done|]. simpl.
  destruct (is_null c); [done|]. intros H. by rewrite IH.
Qed.

(** [before_null] is the longest prefix without a [null] entry. *)
Lemma before_null_prefix l1 l2 :
  existsb is_null l1 = false → before_null (l1 ++ Null :: l2) = l1.
Proof.
  induction l1 as [|c l1 IH]; [done|]. simpl.
  destruct (is_null c); [done|]. intros H. by rewrite IH.
Qed.

Lemma indexLabels_returns l e :
  existsb is_null l = false →
  _indexLabels (set_script l e)
  = Returned (set_labels (foldl index_entry ∅ (imap pair l))
                (set_script l e)).
Proof.
  intros H. unfold _indexLabels. simpl script. by rewrite H, before_null_all.
Qed.

End LabelIndex.

(** Last write wins: in a script without [null] entries, a label id other
    than [__proto__] is indexed at the offset of the last label instruction
    that carries it, and a jump to it sets [pc] to the offset immediately
    after that instruction. *)
Lemma index_last_write_wins (l : list cmd) (id : string) (i : nat)
    (e : engine) :
  existsb is_null l = false →
  truthy id = true →
  id ≠ "__proto__" →
  l !! i = Some (Label id) →
  (∀ j, i < j → l !! j ≠ Some (Label id)) →
  ∃ e', _indexLabels (set_script l e) = Returned e'
        ∧ labels e' !! id = Some i ∧ pc (jumpToLabel id e') = S i.
Proof.
  intros Hnull Hid Hproto Hi Hlast.
  eexists. split; [by apply indexLabels_returns|].
  assert (foldl index_entry ∅ (imap pair l) !! id = Some i) as Hidx
    by by apply index_last.
  split; [done|].
  unfold jumpToLabel. simpl labels. by rewrite Hidx.
Qed.

Lemma index_last_write_wins_ABA :
  ∃ e', _indexLabels (set_script labels_ABA (GalEngine 300)) = Returned e'
        ∧ labels e' !! "A" = Some 7 ∧ pc (jumpToLabel "A" e') = 8.
Proof.
  apply (index_last_write_wins labels_ABA "A" 7 (GalEngine 300)).
  - reflexivity.
  - reflexivity.
  - discriminate.
  - reflexivity.
  - intros j Hj. do 8 (destruct j as [|j]; [lia|]). done.
Defined.

(** C3. Label Index: a label instruction whose id is [__proto__] is never
    indexed, whatever the script, and a jump to that id does not set [pc]
    to the offset after the label: it finds the member the index inherits
    and leaves [pc] a text. Started on the script made of such a label and
    a jump to it, the engine never returns from [start]: it exhausts the
    stack with [pc] no longer a number. *)
Theorem label_named_proto_is_not_indexed (l : list cmd) (e : engine) :
  let e' := state_of (_indexLabels (set_script l e)) in
  labels e' !! "__proto__" = None
  ∧ pc (jumpToLabel "__proto__" e') = PcText "__proto__"
  ∧ (∀ i : nat, pc (jumpToLabel "__proto__" e') ≠ S i)
  ∧ ∀ fuel, ∃ v e0,
      is_number v = false
      ∧ _indexLabels (set_script proto_loop e) = Returned e0
      ∧ labels e0 = ∅
      ∧ start (S (S fuel)) proto_loop e
        = Overflow (set_pc v (set_running true e0)).
Proof.
  intros e'.
  assert (labels e' !! "__proto__" = None) as Hnone.
  { subst e'. unfold _indexLabels.
    destruct (existsb is_null _); apply index_no_proto. }
  assert (pc (jumpToLabel "__proto__" e') = PcText "__proto__") as Hpc.
  { unfold jumpToLabel. by rewrite Hnone. }
  split; [done|]. split; [done|]. split; [intros i; by rewrite Hpc|].
  intros fuel. exists (lost fuel (PcText "__proto__")). eexists.
  split; [by destruct fuel|].
  split; [by apply indexLabels_returns|]. split; [reflexivity|].
  unfold start. rewrite indexLabels_returns by done. cbn [and_then].
  rewrite (next_fetch _ _ 0 (Label "__proto__")) by done. cbn [_execute].
  rewrite (next_fetch _ _ 1 (Jump "__proto__")) by done. cbn [_execute].
  change (truthy "__proto__") with true. cbv iota.
  rewrite next_lost by done.
  destruct e. vm_compute. reflexivity.
Qed.

(** ** Jumps *)

(** A jump whose target is neither in the Label Index nor the name of a
    member the index inherits: the jump itself leaves [pc] where the fetch
    has put it, at the next sequential instruction, and reports a warning;
    the run is not halted and goes on from there exactly as after a no-op
    instruction in the jump's place. *)
Lemma jump_unknown_label_falls_through (fuel : nat) (to : string)
    (e : engine) (p : nat) :
  running e = true →
  pc e = p →
  script e !! p = Some (Jump to) →
  truthy to = true →
  labels e !! to = None →
  inherited to = false →
  let fetched := set_pc (S p) e in
  let e1 := warn (LabelNotFound to) fetched in
  jumpToLabel to fetched = e1
  ∧ pc e1 = S p
  ∧ running e1 = true
  ∧ console e1 = LabelNotFound to :: console e
  ∧ next (S fuel) e = next fuel e1
  ∧ ∀ id, _execute (next fuel) (Jump to) fetched
          = _execute (next fuel) (Label id) e1.
Proof.
  intros Hrun Hp Hjump Hto Hnone Hinh fetched e1.
  assert (jumpToLabel to fetched = e1) as Hj.
  { unfold jumpToLabel. subst fetched. simpl. by rewrite Hnone, Hinh. }
  assert (_execute (next fuel) (Jump to) fetched = next fuel e1) as Hex.
  { simpl. by rewrite Hto, Hj. }
  repeat apply conj; try done.
  by rewrite (next_fetch _ _ p (Jump to)).
Qed.

Lemma jump_unknown_label_falls_through_nowhere :
  let e := set_running true
             (state_of (_indexLabels
                          (set_script [Jump "nowhere"; End] (GalEngine 300)))) in
  let e1 := warn (LabelNotFound "nowhere") (set_pc 1 e) in
  pc e1 = 1
  ∧ console e1 = [LabelNotFound "nowhere"]
  ∧ next 5 e = next 4 e1
  ∧ next 5 e = Returned (_onEnd (set_running false (set_pc 2 e1))).
Proof.
  intros e e1.
  pose proof (jump_unknown_label_falls_through 4 "nowhere" e 0
                eq_refl eq_refl eq_refl eq_refl eq_refl eq_refl) as H.
  cbv zeta in H. destruct H as (_ & Hpc & _ & Hcon & Hnext & _).
  repeat apply conj; [exact Hpc|exact Hcon|exact Hnext|].
  rewrite Hnext. vm_compute. reflexivity.
Defined.

(** C5. A jump whose target is not in the Label Index but is the name of a
    member the index inherits from [Object.prototype]: no warning is
    reported, [pc] is set to a value that is not a number, and the call of
    [next] does not return: it exhausts the stack without executing another
    instruction, having written nothing but [pc]. Every later call of
    [next] does the same. *)
Theorem jump_to_member_name_wedges (fuel : nat) (to : string)
    (e : engine) (p : nat) :
  running e = true →
  pc e = p →
  script e !! p = Some (Jump to) →
  labels e !! to = None →
  inherited to = true →
  ∃ v, is_number v = false
       ∧ next (S fuel) e = Overflow (set_pc v e)
       ∧ console (set_pc v e) = console e
       ∧ running (set_pc v e) = true
       ∧ ∀ fuel', ∃ v', is_number v' = false
                        ∧ next fuel' (set_pc v e) = Overflow (set_pc v' e).
Proof.
  intros Hrun Hp Hjump Hnone Hinh.
  assert (truthy to = true) as Hto.
  { destruct to; [done|reflexivity]. }
  exists (lost fuel (PcText to)).
  assert (is_number (lost fuel (PcText to)) = false) as Hv
    by by destruct fuel.
  split; [done|]. split; [|split; [done|split; [done|]]].
  - rewrite (next_fetch _ _ p (Jump to)) by done.
    cbn [_execute]. rewrite Hto. unfold jumpToLabel. simpl labels.
    rewrite Hnone, Hinh, next_lost by done.
    simpl pc. by rewrite !set_pc_twice.
  - intros fuel'. exists (lost fuel' (lost fuel (PcText to))).
    split; [by destruct fuel', fuel|].
    rewrite next_lost by done. simpl pc. by rewrite set_pc_twice.
Qed.

Lemma jump_to_member_name_wedges_witness :
  let e := set_running true
             (set_script [Jump "constructor"; End] (GalEngine 300)) in
  ∃ v, is_number v = false
       ∧ next 5 e = Overflow (set_pc v e)
       ∧ console (set_pc v e) = []
       ∧ running (set_pc v e) = true.
Proof.
  intros e.
  destruct (jump_to_member_name_wedges 4 "constructor" e 0
              eq_refl eq_refl eq_refl eq_refl eq_refl)
    as (v & Hv & Hnext & Hcon & Hrun & _).
  exists v. repeat apply conj; [exact Hv|exact Hnext|exact Hcon|exact Hrun].
Defined.

(** ** Stopping *)

(** C7. Once the running flag is cleared, a delayed auto-advance timer
    that fires does nothing: the turn only takes the timer off the queue
    and moves the clock; no instruction is executed and [pc] and the rest of
    the interpreter state stay as they were. *)
Theorem stopped_timer_is_noop (fuel : nat) (e : engine) (d : nat)
    (q : list (nat * closure)) :
  running e = false →
  timers e = (d, KNext) :: q →
  let e' := set_timers q (set_now d e) in
  running (stop e) = false
  ∧ fire (S fuel) e = Returned e'
  ∧ pc e' = pc e ∧ running e' = false
  ∧ script e' = script e ∧ labels e' = labels e
  ∧ textContent e' = textContent e ∧ nameLabel e' = nameLabel e
  ∧ choiceBox e' = choiceBox e
  ∧ _waitingForClick e' = _waitingForClick e
  ∧ console e' = console e ∧ port e' = port e.
Proof.
  intros Hrun Hq e'. split; [done|]. split.
  - unfold fire. rewrite Hq. simpl. by rewrite Hrun.
  - by repeat split.
Qed.

Lemma stopped_timer_is_noop_witness :
  let e := stop (state_of (start 5 [Wait (Some 40); End] (GalEngine 300))) in
  timers e = [(40, KNext)]
  ∧ fire 5 e = Returned (set_timers [] (set_now 40 e))
  ∧ pc (state_of (fire 5 e)) = 1.
Proof.
  intros e.
  pose proof (stopped_timer_is_noop 4 e 40 [] eq_refl eq_refl) as H.
  cbv zeta in H. destruct H as (_ & Hfire & _).
  rewrite Hfire. repeat split; reflexivity.
Defined.

(** ** Settle delays *)

Lemma or_str_truthy a b : truthy b = true → truthy (or_str a b) = true.
Proof. unfold or_str. by destruct (truthy a) eqn:Ha. Qed.




(** ** What a synchronous run leaves alone *)

Ltac break_handlers :=
  unfold _cmdSay, _typeText, tick, run_callback, _cmdBg, _setBgImage,
    _cmdChar, and_then, _showChar, _hideChar, _setCharState, _cmdChoice,
    _cmdBgm, _onEnd, jumpToLabel, setTimeout, warn, emit;
  repeat case_match;
  repeat match goal with
         | H : @eq completion _ _ |- _ =>
             first [discriminate H | injection H as <-]
         end;
  simpl.

Lemma advanced_eq e :
  advanced e
  = set_pc (match pc e with PcNum n => PcNum (S n) | _ => PcNaN end) e.
Proof. unfold advanced. by destruct (pc e). Qed.

Lemma execute_same_program (this_next : engine → completion) c e :
  (∀ e0, same_program e0 (state_of (this_next e0))) →
  same_program e (state_of (_execute this_next c e)).
Proof.
  intros Hnext. unfold same_program in *.
  destruct c; simpl; break_handlers;
    try (by repeat split);
    match goal with
    | |- context [this_next ?e1] =>
        destruct (Hnext e1) as (-> & -> & -> & -> & ->); by repeat split
    end.
Qed.

Lemma next_same_program fuel e : same_program e (state_of (next fuel e)).
Proof.
  revert e. induction fuel as [|fuel IH]; intros e.
  - by repeat split.
  - rewrite next_S.
    destruct (running e); cbn [negb]; [|by repeat split].
    destruct (at_end e); [by repeat split|].
    unfold same_program.
    destruct (execute_same_program (next fuel) (fetched e) (advanced e) IH)
      as (-> & -> & -> & -> & ->).
    rewrite advanced_eq. by repeat split.
Qed.

(** The index [start] builds is the one the run keeps. *)
Lemma start_labels fuel l e :
  existsb is_null l = false →
  labels (state_of (start fuel l e)) = foldl index_entry ∅ (imap pair l)
  ∧ script (state_of (start fuel l e)) = l.
Proof.
  intros Hnull. unfold start. rewrite indexLabels_returns by done.
  cbn [and_then].
  match goal with
  | |- context [next fuel ?e1] =>
      destruct (next_same_program fuel e1) as (Hs & Hl & _)
  end.
  by rewrite Hs, Hl.
Qed.

(** ** Program counter *)

Section ProgramCounter.

Variables (scr : list cmd) (lbl : gmap string nat) (buttons : list choice).

Local Abbreviation moves := (rtc (pc_step scr lbl buttons)).

Lemma execute_pc (this_next : engine → completion) (j : nat) c e :
  (∀ e0, script e0 = scr → labels e0 = lbl →
         moves (pc e0) (pc (state_of (this_next e0)))) →
  script e = scr → labels e = lbl →
  scr !! j = Some c → pc e = S j →
  moves (pc e) (pc (state_of (_execute this_next c e))).
Proof.
  intros Hnext Hscr Hlbl Hc Hpc.
  destruct c; simpl; break_handlers;
    try reflexivity;
    try (match goal with
         | |- context [this_next ?e1] => by apply (Hnext e1)
         end);
    (eapply rtc_l;
     [|match goal with
       | |- context [this_next ?e1] => by apply (Hnext e1)
       end]);
    simpl; rewrite Hpc.
  - eapply pc_jump; [done|]. by rewrite <- Hlbl.
  - eapply pc_jump_member; [done| |done]. by rewrite <- Hlbl.
Qed.

Lemma next_pc fuel e :
  script e = scr → labels e = lbl →
  moves (pc e) (pc (state_of (next fuel e))).
Proof.
  revert e. induction fuel as [|fuel IH]; intros e Hscr Hlbl.
  - reflexivity.
  - rewrite next_S.
    destruct (running e); cbn [negb]; [|reflexivity].
    unfold at_end, fetched, advanced, script_at_pc.
    destruct (pc e) as [p|id|] eqn:Hp.
    + destruct (length (script e) <=? p) eqn:Hlen;
        [simpl; by rewrite Hp|].
      apply Nat.leb_gt in Hlen.
      destruct (lookup_lt_is_Some_2 (script e) p Hlen) as [c Hc].
      rewrite Hc. cbn [default].
      eapply rtc_l.
      * apply pc_fetch. by rewrite <- Hscr.
      * apply (execute_pc (next fuel) p c (set_pc (S p) e));
          try done. by rewrite <- Hscr.
    + cbn [default _execute].
      eapply rtc_l; [apply pc_fetch_text|]. by apply (IH (set_pc PcNaN e)).
    + cbn [default _execute].
      eapply rtc_l; [apply pc_fetch_nan|]. by apply (IH (set_pc PcNaN e)).
Qed.

End ProgramCounter.

Ltac by_next_pc :=
  match goal with
  | |- context [next ?f ?e1] => by apply (next_pc _ _ _ f e1)
  end.

(** Without a [jump] that finds its target in the script and without a
    [goto], such moves only go forward. *)
Lemma moves_forward scr lbl (p : nat) v :
  (∀ j to, scr !! j = Some (Jump to) →
           lbl !! to = None ∧ inherited to = false) →
  rtc (pc_step scr lbl []) p v → ∃ q : nat, v = q ∧ p ≤ q.
Proof.
  intros Hnojump Hm. remember (PcNum p) as u eqn:Hu. revert p Hu.
  induction Hm as [|u v w Hstep _ IH]; intros p ->; [by exists p|].
  inversion Hstep as [p' Hlt| | | j to i Hj Hto | j to Hj Hto Hinh
                      | ? ch i Hch | ? ch Hch]; subst.
  - destruct (IH (S p) eq_refl) as (q & -> & Hq). exists q. split; [done|lia].
  - destruct (Hnojump j to Hj) as [Hnone _]. by rewrite Hnone in Hto.
  - destruct (Hnojump j to Hj) as [_ Hno]. by rewrite Hno in Hinh.
  - by apply elem_of_nil in Hch.
  - by apply elem_of_nil in Hch.
Qed.

Lemma next_forward_without_jumps fuel e (p : nat) :
  pc e = p →
  (∀ j to, script e !! j = Some (Jump to) →
           labels e !! to = None ∧ inherited to = false) →
  ∃ q : nat, pc (state_of (next fuel e)) = q ∧ p ≤ q.
Proof.
  intros Hp Hnojump.
  apply (moves_forward (script e) (labels e)); [done|].
  rewrite <- Hp. by apply next_pc.
Qed.

Lemma fire_pc fuel e : pc_moves e (state_of (fire fuel e)).
Proof.
  unfold pc_moves, fire.
  destruct (timers e) as [|[d k] q]; [reflexivity|].
  destruct k as [|text i cb]; simpl.
  - by_next_pc.
  - unfold tick. break_handlers; try reflexivity. by_next_pc.
Qed.


(** ** Interpreter states *)

(** Two engines with the same fields are equal. *)
Lemma engine_ext (e1 e2 : engine) :
  transition e1 = transition e2 → resources e1 = resources e2 →
  script e1 = script e2 → labels e1 = labels e2 → pc e1 = pc e2 →
  running e1 = running e2 → bgVisible e1 = bgVisible e2 →
  bgImage e1 = bgImage e2 → state_bgm e1 = state_bgm e2 →
  nameLabel e1 = nameLabel e2 → textContent e1 = textContent e2 →
  choiceBox e1 = choiceBox e2 →
  _waitingForClick e1 = _waitingForClick e2 →
  _endOnClick e1 = _endOnClick e2 → now e1 = now e2 →
  timers e1 = timers e2 → console e1 = console e2 → port e1 = port e2 →
  e1 = e2.
Proof. destruct e1, e2; simpl; intros; by subst. Qed.

Ltac engine_eq := apply engine_ext; simpl; try done; try lia.

Lemma substring_all (s : string) : String.substring 0 (String.length s) s = s.
Proof. induction s as [|a s IH]; simpl; [done|]. by rewrite IH. Qed.

(** ** Typewriter *)

(** A reveal that stands alone in the queue with its counter at [i] shows
    the rest of the text in [k] turns and calls its callback in the turn
    after, [16 * k] ms after the pending tick was due. *)
Lemma reveal_turns (k : nat) fuel text i cb e d :
  i + k = String.length text →
  timers e = [(d, KTick text i cb)] →
  turns (S k) fuel e
  = state_of
      (run_callback (next fuel) cb
         (set_timers []
            (set_now (d + 16 * k)
               (set_textContent
                  (match k with 0 => textContent e | S _ => text end) e)))).
Proof.
  revert i e d. induction k as [|k IH]; intros i e d Hik Hq.
  - simpl. unfold fire. rewrite Hq. simpl. unfold tick.
    destruct (Nat.leb_spec (String.length text) i); [|lia].
    f_equal. f_equal. engine_eq.
  - change (turns (S (S k)) fuel e)
      with (turns (S k) fuel (state_of (fire fuel e))).
    unfold fire. rewrite Hq. simpl run_closure. unfold tick.
    destruct (Nat.leb_spec (String.length text) i); [lia|].
    cbn [state_of].
    rewrite (IH (S i) _ (d + 16)); [|lia|done].
    f_equal. f_equal.
    assert (match k with
            | 0 => String.substring 0 (S i) text
            | S _ => text
            end = text) as Htxt.
    { destruct k; [|done].
      replace (S i) with (String.length text) by lia. apply substring_all. }
    engine_eq.
Qed.

Local Opaque next.


Local Transparent next.


(** ** The script [say("hi"), end] *)

(** C4. Started on [say("hi"), end] with nothing else pending, the
    engine reveals "hi" in two timer turns and is then Awaiting-Advance; one
    advance click executes [end] (the run is Ended, the end-state text is
    shown); a second click changes nothing. *)
Theorem say_hi_end (fuel : nat) (who nm : string) (e : engine) :
  timers e = [] →
  let f := S (S fuel) in
  let e1 := state_of (start f [Say who nm "hi"; End] e) in
  let e2 := turns 2 f e1 in
  let e3 := state_of (_onClick f e2) in
  AwaitingAdvance e2 ∧ textContent e2 = "hi" ∧ pc e2 = 1
  ∧ _onClick f e2 = Returned e3
  ∧ Ended e3 ∧ pc e3 = 2 ∧ textContent e3 = end_text ∧ nameLabel e3 = ""
  ∧ _onClick f e3 = Returned e3.
Proof.
  intros Hq. unfold start. rewrite indexLabels_returns by done.
  generalize (foldl index_entry ∅ (imap pair [Say who nm "hi"; End])).
  intros L. destruct e. simpl in Hq. subst. cbv zeta.
  unfold AwaitingAdvance, Ended.
  cbn [and_then].
  repeat apply conj; vm_compute; reflexivity.
Qed.

Lemma say_hi_end_witness :
  timers (GalEngine 300) = [] ∧
  let f := 2 in
  let e1 := state_of (start f [Say "" "" "hi"; End] (GalEngine 300)) in
  let e2 := turns 2 f e1 in
  let e3 := state_of (_onClick f e2) in
  AwaitingAdvance e2 ∧ textContent e2 = "hi" ∧ pc e2 = 1
  ∧ _onClick f e2 = Returned e3
  ∧ Ended e3 ∧ pc e3 = 2 ∧ textContent e3 = end_text ∧ nameLabel e3 = ""
  ∧ _onClick f e3 = Returned e3.
Proof.
  split; [reflexivity|].
  exact (say_hi_end 0 "" "" (GalEngine 300) eq_refl).
Defined.

(** ** Advance clicks *)

(** A click is ignored while choice buttons are displayed. *)
Lemma click_ignored_on_choice fuel e :
  choiceBox e ≠ [] → _onClick fuel e = Returned e.
Proof. unfold _onClick. by destruct (choiceBox e). Qed.

(** A click is ignored once the run has ended or was stopped. *)
Lemma click_ignored_when_ended fuel e :
  running e = false → _onClick (S fuel) e = Returned e.
Proof.
  intros Hrun. unfold _onClick.
  destruct (choiceBox e); [|done]. by apply next_not_running.
Qed.

(** C2. A click that arrives while "hello" is still being revealed is
    not ignored: [_onClick] only looks at the choice box and [next] only at
    the running flag, so the next instruction is fetched and executed (the
    flag [_waitingForClick] is written by the [say] callback and read
    nowhere). *)
Theorem click_during_reveal_advances :
  let e1 := state_of (start 5 hello_bye (GalEngine 300)) in
  let e2 := state_of (_onClick 5 e1) in
  (running e1 = true ∧ pc e1 = 1 ∧ textContent e1 = "h"
   ∧ _waitingForClick e1 = false
   ∧ timers e1 = [(16, KTick "hello" 1 (SayDone false false))])
  ∧ pc e2 = 2 ∧ textContent e2 = "b"
  ∧ timers e2 = [(16, KTick "hello" 1 (SayDone false false));
                 (16, KTick "bye" 1 (SayDone false true))]
  ∧ e2 ≠ e1.
Proof.
  cbv zeta. repeat apply conj; try (vm_compute; reflexivity).
  intros Heq. apply (f_equal pc) in Heq. vm_compute in Heq. discriminate.
Qed.

(** ** Pending timeouts are never cancelled *)

(** A new timeout goes behind every pending one that is due no later. *)
Lemma enqueue_cons_queue (t : nat * closure) (q : list (nat * closure)) :
  ∃ q1 q2, q = q1 ++ q2 ∧ enqueue t q = q1 ++ t :: q2
           ∧ Forall (λ u, u.1 ≤ t.1) q1.
Proof.
  induction q as [|u q IH]; simpl.
  - by exists [], [].
  - destruct (u.1 <=? t.1) eqn:Hle.
    + destruct IH as (q1 & q2 & -> & -> & Hall).
      exists (u :: q1), q2. split; [done|]. split; [done|].
      constructor; [|done]. by apply Nat.leb_le.
    + by exists [], (u :: q).
Qed.

















(** ** The console is write-only *)


Ltac fields :=
  cbn [transition resources script labels pc running bgVisible bgImage
       state_bgm nameLabel textContent choiceBox _waitingForClick
       _endOnClick now timers console port
       set_resources set_script set_labels set_pc set_running set_bgVisible
       set_bgImage set_state_bgm set_nameLabel set_textContent set_choiceBox
       set_waitingForClick set_endOnClick set_now set_timers set_console
       set_port] in *.

Ltac unfold_handlers :=
  unfold _cmdSay, _typeText, tick, run_callback, _cmdBg, _setBgImage,
    _cmdChar, and_then, _showChar, _hideChar, _setCharState, _cmdChoice,
    _cmdBgm, _onEnd, jumpToLabel, setTimeout, warn, emit, speaker,
    script_at_pc, lookup_asset.

Ltac completion_eqs :=
  repeat match goal with
         | H : @eq completion _ _ |- _ =>
             first [discriminate H | injection H as <-]
         end.





(** ** Background music *)


(** * Further properties *)

(** ** The label index, entry by entry *)

Lemma index_none l id :
  foldl index_entry ∅ (imap pair l) !! id = None →
  truthy id = true → id ≠ "__proto__" → ∀ j, l !! j ≠ Some (Label id).
Proof.
  intros Hnone Hid Hproto.
  induction l as [|c l IH] using rev_ind; intros j.
  - by rewrite lookup_nil.
  - rewrite index_snoc in Hnone. unfold index_entry in Hnone; simpl in Hnone.
    assert (c ≠ Label id ∧ foldl index_entry ∅ (imap pair l) !! id = None)
      as [Hc Hrec].
    { destruct c as [| | | | |id'| | | | | |]; try done.
      destruct (truthy id') eqn:Hid'.
      - destruct (id' =? "__proto__")%string eqn:Hp.
        + apply String.eqb_eq in Hp. split; [congruence|done].
        + destruct (decide (id' = id)) as [->|Hne].
          * by rewrite lookup_insert_eq in Hnone.
          * rewrite lookup_insert_ne in Hnone by done.
            split; [congruence|done].
      - split; [congruence|done]. }
    destruct (decide (j < length l)) as [Hlt|Hge].
    + rewrite lookup_app_l by done. by apply IH.
    + rewrite lookup_app_r by lia.
      destruct (j - length l) as [|n]; simpl; [congruence|].
      by rewrite lookup_nil.
Qed.

Lemma index_truthy l id i :
  foldl index_entry ∅ (imap pair l) !! id = Some i → truthy id = true.
Proof.
  induction l as [|c l IH] using rev_ind.
  - simpl. by rewrite lookup_empty.
  - rewrite index_snoc. unfold index_entry; simpl.
    destruct c as [| | | | |id'| | | | | |]; try done.
    destruct (truthy id') eqn:Hid'; [|done].
    destruct (id' =? "__proto__")%string; [done|].
    destruct (decide (id' = id)) as [->|Hne]; [done|].
    by rewrite lookup_insert_ne.
Qed.

Lemma index_is_last l id i :
  foldl index_entry ∅ (imap pair l) !! id = Some i →
  ∀ j, i < j → l !! j ≠ Some (Label id).
Proof.
  revert i. induction l as [|c l IH] using rev_ind; intros i.
  - simpl. by rewrite lookup_empty.
  - rewrite index_snoc. unfold index_entry; simpl.
    assert (∀ i, foldl index_entry ∅ (imap pair l) !! id = Some i →
                 c ≠ Label id →
                 ∀ j, i < j → (l ++ [c]) !! j ≠ Some (Label id)) as Hold.
    { intros k Hk Hc j Hj.
      destruct (decide (j < length l)) as [Hlt|Hge].
      - rewrite lookup_app_l by done. by apply (IH k).
      - rewrite lookup_app_r by lia.
        destruct (j - length l) as [|n]; simpl; [congruence|].
        by rewrite lookup_nil. }
    assert (∀ j, length l < j → (l ++ [c]) !! j ≠ Some (Label id)) as Hpast.
    { intros j Hj. rewrite lookup_ge_None_2; [done|].
      rewrite length_app. simpl. lia. }
    destruct c as [| | | | |id'| | | | | |];
      try (intros Hi; by apply (Hold i Hi)).
    destruct (truthy id') eqn:Hid'.
    + destruct (id' =? "__proto__")%string eqn:Hp.
      * intros Hi. apply (Hold i Hi). intros [= ->].
        apply String.eqb_eq in Hp. subst.
        by rewrite index_no_proto in Hi.
      * destruct (decide (id' = id)) as [->|Hne].
        -- rewrite lookup_insert_eq. intros [= <-]. apply Hpast.
        -- rewrite lookup_insert_ne by done.
           intros Hi. apply (Hold i Hi). congruence.
    + intros Hi. apply (Hold i Hi). intros [= ->].
      apply index_truthy in Hi. congruence.
Qed.

Lemma indexLabels_labels l e :
  labels (state_of (_indexLabels (set_script l e)))
  = foldl index_entry ∅ (imap pair (before_null l)).
Proof. unfold _indexLabels. by destruct (existsb is_null _). Qed.

Lemma before_null_length l : length (before_null l) ≤ length l.
Proof.
  induction l as [|c l IH]; simpl; [done|].
  destruct (is_null c); simpl; lia.
Qed.

Lemma before_null_lookup l i c :
  before_null l !! i = Some c → l !! i = Some c.
Proof.
  revert i. induction l as [|c' l IH]; intros i; simpl; [done|].
  destruct (is_null c'); [done|].
  destruct i as [|i]; simpl; [done|apply IH].
Qed.

(** X1. The index [_indexLabels] builds holds exactly the labels of the
    script that stand in front of its first [null] entry, apart from those
    with an empty id or the id [__proto__]. The call returns when the
    script has no [null] entry, and then every entry has been seen; it
    throws when there is one. An entry [id ↦ i] means that [id] is
    non-empty and not [__proto__], that the instruction at offset [i] is a
    label with this id and that no later one seen is; an id has no entry
    exactly when it is empty, is [__proto__], or no label seen carries
    it. *)
Theorem index_labels_exact (l : list cmd) (id : string) (e : engine) :
  let c := _indexLabels (set_script l e) in
  let seen := before_null l in
  (existsb is_null l = false → (∃ e', c = Returned e') ∧ seen = l)
  ∧ (existsb is_null l = true → ∃ e', c = Threw e')
  ∧ (∀ i, labels (state_of c) !! id = Some i →
          truthy id = true ∧ id ≠ "__proto__"
          ∧ seen !! i = Some (Label id) ∧ l !! i = Some (Label id)
          ∧ ∀ j, i < j → seen !! j ≠ Some (Label id))
  ∧ (labels (state_of c) !! id = None ↔
     truthy id = false ∨ id = "__proto__"
     ∨ ∀ j, seen !! j ≠ Some (Label id)).
Proof.
  intros c seen. subst c seen. rewrite indexLabels_labels.
  split; [|split; [|split]].
  - intros Hnull. split; [|by apply before_null_all].
    unfold _indexLabels. simpl script. rewrite Hnull. by eexists.
  - intros Hnull. unfold _indexLabels. simpl script. rewrite Hnull.
    by eexists.
  - intros i Hi. split; [by eapply index_truthy|]. split.
    { intros ->. by rewrite index_no_proto in Hi. }
    split; [by apply index_sound|].
    split; [by apply before_null_lookup, index_sound|].
    by apply index_is_last.
  - split.
    + intros Hnone. destruct (truthy id) eqn:Hid; [right|by left].
      destruct (decide (id = "__proto__")) as [->|Hp]; [by left|right].
      by apply index_none.
    + intros Hor.
      destruct (foldl index_entry ∅ (imap pair (before_null l)) !! id)
        as [i|] eqn:Hi; [|done].
      destruct Hor as [Hid|[->|Hno]].
      * apply index_truthy in Hi. congruence.
      * by rewrite index_no_proto in Hi.
      * by apply index_sound, Hno in Hi.
Qed.

Lemma index_labels_exact_witness :
  let c := _indexLabels (set_script labels_ABA (GalEngine 300)) in
  labels (state_of c) !! "A" = Some 7
  ∧ truthy "A" = true ∧ "A" ≠ "__proto__"
  ∧ before_null labels_ABA !! 7 = Some (Label "A")
  ∧ labels_ABA !! 7 = Some (Label "A")
  ∧ ∀ j, 7 < j → before_null labels_ABA !! j ≠ Some (Label "A").
Proof.
  intros c.
  assert (labels (state_of c) !! "A" = Some 7) as H7
    by (vm_compute; reflexivity).
  split; [exact H7|].
  destruct (index_labels_exact labels_ABA "A" (GalEngine 300))
    as (_ & _ & Hsome & _).
  exact (Hsome 7 H7).
Defined.

(** ** The program counter stays inside the script *)

Lemma index_in_range l e :
  labels_in_range (state_of (_indexLabels (set_script l e))).
Proof.
  intros id i Hi. rewrite indexLabels_labels in Hi.
  apply index_sound, before_null_lookup, lookup_lt_Some in Hi.
  unfold _indexLabels. by destruct (existsb is_null _).
Qed.

Lemma moves_in_range scr lbl buttons (p : nat) v :
  (∀ id i, lbl !! id = Some i → i < length scr) →
  (∀ j to, scr !! j = Some (Jump to) → resolves lbl to) →
  (∀ ch, ch ∈ buttons → resolves lbl (goto ch)) →
  rtc (pc_step scr lbl buttons) p v →
  p ≤ length scr → in_range (length scr) v.
Proof.
  intros Hrange Hjumps Hgotos Hm. remember (PcNum p) as u eqn:Hu.
  revert p Hu. induction Hm as [|u v w Hstep _ IH]; intros p -> Hp;
    [by exists p|].
  inversion Hstep as [p' Hlt| | | j to i Hj Hto | j to Hj Hto Hinh
                      | ? ch i Hch Hto | ? ch Hch Hto Hinh]; subst.
  - apply (IH (S p)); [done|lia].
  - apply (IH (S i)); [done|]. apply Hrange in Hto. lia.
  - destruct (Hjumps j to Hj Hinh) as [? Hsome]. congruence.
  - apply (IH (S i)); [done|]. apply Hrange in Hto. lia.
  - destruct (Hgotos ch Hch Hinh) as [? Hsome]. congruence.
Qed.

Lemma click_pc fuel e : pc_moves e (state_of (_onClick fuel e)).
Proof.
  unfold pc_moves, _onClick. destruct (choiceBox e); [|reflexivity].
  by_next_pc.
Qed.

Lemma choose_pc fuel i e : pc_moves e (state_of (choose fuel i e)).
Proof.
  unfold pc_moves, choose.
  destruct (choiceBox e !! i) as [ch|] eqn:Hch; [|reflexivity].
  assert (ch ∈ choiceBox e) as Hin by (by eapply list_elem_of_lookup_2).
  destruct (truthy (goto ch)).
  - unfold jumpToLabel. simpl.
    destruct (callback ch); simpl;
      destruct (labels e !! goto ch) as [k|] eqn:Hk; simpl;
      try destruct (inherited (goto ch)) eqn:Hinh; simpl;
      try by_next_pc.
    all: eapply rtc_l;
      [first [by eapply pc_goto | by eapply pc_goto_member]|by_next_pc].
  - destruct (callback ch); by_next_pc.
Qed.

(** *** The buttons on display *)

Ltac buttons_case Hnext :=
  first
    [ match goal with
      | |- context [state_of (?nx ?e1)] =>
          destruct (Hnext e1) as [Hb|[Hb|Hb]]; simpl in Hb;
          [ first [by left | by (right; left)]
          | by (right; left)
          | by (right; right) ]
      end
    | by left
    | by (right; left) ].

Lemma execute_buttons (this_next : engine → completion) c e :
  (∀ e0, buttons_from e0 (state_of (this_next e0))) →
  (∀ cs, c = Choice cs → Choice cs ∈ script e) →
  buttons_from e (state_of (_execute this_next c e)).
Proof.
  intros Hnext Hc. unfold buttons_from in *.
  destruct c; simpl; break_handlers; try buttons_case Hnext.
  right; right. by apply Hc.
Qed.

Lemma next_buttons fuel e : buttons_from e (state_of (next fuel e)).
Proof.
  revert e. induction fuel as [|fuel IH]; intros e; [by left|].
  rewrite next_S.
  destruct (running e); cbn [negb]; [|by left].
  destruct (at_end e); [by left|].
  rewrite advanced_eq.
  apply (execute_buttons (next fuel) _ (set_pc _ e)); [done|].
  intros cs Hcs. simpl. unfold fetched, script_at_pc in Hcs.
  destruct (pc e) as [p| |]; [|done|done].
  destruct (script e !! p) as [c|] eqn:Hp; [|done].
  simpl in Hcs. subst c. by eapply list_elem_of_lookup_2.
Qed.

Lemma fire_buttons fuel e : buttons_from e (state_of (fire fuel e)).
Proof.
  unfold fire. destruct (timers e) as [|[d k] q]; [by left|].
  pose proof (next_buttons fuel) as Hnext. unfold buttons_from in *.
  destruct k as [|text i cb]; simpl.
  - buttons_case Hnext.
  - unfold tick. break_handlers; buttons_case Hnext.
Qed.

Lemma click_buttons fuel e : buttons_from e (state_of (_onClick fuel e)).
Proof.
  unfold _onClick. destruct (choiceBox e) eqn:Hb; [|by left].
  destruct (next_buttons fuel e) as [H|[H|H]];
    [left; congruence|by (right; left)|by (right; right)].
Qed.

Lemma choose_buttons fuel i e : buttons_from e (state_of (choose fuel i e)).
Proof.
  unfold choose. destruct (choiceBox e !! i) as [ch|]; [|by left].
  pose proof (next_buttons fuel) as Hnext. unfold buttons_from in *.
  unfold jumpToLabel, emit, warn. repeat case_match; buttons_case Hnext.
Qed.

Lemma next_keeps fuel e :
  script (state_of (next fuel e)) = script e
  ∧ labels (state_of (next fuel e)) = labels e.
Proof. by destruct (next_same_program fuel e) as (? & ? & _). Qed.

Lemma fire_keeps fuel e :
  script (state_of (fire fuel e)) = script e
  ∧ labels (state_of (fire fuel e)) = labels e.
Proof.
  unfold fire. destruct (timers e) as [|[d k] q]; [done|].
  destruct k as [|text i cb]; simpl.
  - apply (next_keeps fuel (set_timers q (set_now d e))).
  - unfold tick, run_callback, setTimeout.
    repeat case_match; simpl; try done.
    apply (next_keeps fuel (set_timers q (set_now d e))).
Qed.

Lemma click_keeps fuel e :
  script (state_of (_onClick fuel e)) = script e
  ∧ labels (state_of (_onClick fuel e)) = labels e.
Proof.
  unfold _onClick. destruct (choiceBox e); [apply next_keeps|done].
Qed.

Lemma choose_keeps fuel i e :
  script (state_of (choose fuel i e)) = script e
  ∧ labels (state_of (choose fuel i e)) = labels e.
Proof.
  unfold choose. destruct (choiceBox e !! i) as [ch|]; [|done].
  unfold jumpToLabel, emit, warn.
  repeat case_match; simpl;
    match goal with
    | |- context [next fuel ?e1] => apply (next_keeps fuel e1)
    end.
Qed.

(** One step of a safe engine leaves it safe. *)
Lemma step_safe e e' :
  script e' = script e → labels e' = labels e →
  buttons_from e e' → pc_moves e e' →
  pc_safe e → pc_safe e'.
Proof.
  intros Hs Hl Hb Hm (Hrange & Htargets & (p & Hp & Hle)).
  unfold pc_safe, labels_in_range, targets_resolve in *.
  rewrite Hs, Hl. apply Forall_app in Htargets as [Hscr Hbtn].
  split; [done|]. split.
  - apply Forall_app. split; [done|].
    destruct Hb as [->|[->|Hin]]; [done|constructor|].
    apply Forall_forall. intros id Hid.
    apply (proj1 (Forall_forall _ _) Hscr).
    apply list_elem_of_bind. by exists (Choice (choiceBox e')).
  - unfold pc_moves in Hm. rewrite Hp in Hm.
    apply (moves_in_range (script e) (labels e) (choiceBox e) p);
      try done.
    + intros j to Hj. apply (proj1 (Forall_forall _ _) Hscr).
      apply list_elem_of_bind. exists (Jump to).
      split; [by apply list_elem_of_singleton|].
      by eapply list_elem_of_lookup_2.
    + intros ch Hch. apply (proj1 (Forall_forall _ _) Hbtn).
      by apply list_elem_of_fmap_2.
Qed.

(** X2. With a label index whose entries lie inside the script (as
    [start] builds it) and no [jump] target or [goto] that the index merely
    inherits from [Object.prototype], [pc] stays a number in the range
    [0 .. length script]: these conditions hold again after [next], a
    timer turn, an advance click, the listener of a choice button and a
    whole click on a choice button. *)
Theorem pc_stays_in_range (fuel : nat) (e : engine) :
  pc_safe e →
  pc_safe (state_of (next fuel e))
  ∧ pc_safe (state_of (fire fuel e))
  ∧ pc_safe (state_of (_onClick fuel e))
  ∧ ∀ i, pc_safe (state_of (choose fuel i e))
         ∧ pc_safe (state_of (click_button fuel i e)).
Proof.
  assert (∀ e0 i, pc_safe e0 → pc_safe (state_of (choose fuel i e0)))
    as Hchoose.
  { intros e0 i. apply step_safe;
      [apply choose_keeps|apply choose_keeps|apply choose_buttons
      |apply choose_pc]. }
  assert (∀ e0, pc_safe e0 → pc_safe (state_of (_onClick fuel e0)))
    as Hclick.
  { intros e0. apply step_safe;
      [apply click_keeps|apply click_keeps|apply click_buttons
      |apply click_pc]. }
  intros Hsafe. split; [|split; [|split; [|intros i; split]]].
  - revert Hsafe. apply step_safe;
      [apply next_keeps|apply next_keeps|apply next_buttons
      |by apply next_pc].
  - revert Hsafe. apply step_safe;
      [apply fire_keeps|apply fire_keeps|apply fire_buttons|apply fire_pc].
  - by apply Hclick.
  - by apply Hchoose.
  - unfold click_button. destruct (choiceBox e !! i); [|done].
    by apply Hclick, Hchoose.
Qed.

Lemma pc_stays_in_range_witness :
  let e := state_of (start 5 menu_loop (GalEngine 300)) in
  (pc e = 2 ∧ pc_safe e)
  ∧ (pc (state_of (next 5 e)) = 2 ∧ pc_safe (state_of (next 5 e)))
  ∧ (pc (state_of (choose 5 0 e)) = 2
     ∧ pc_safe (state_of (choose 5 0 e)))
  ∧ pc_safe (state_of (click_button 5 1 e)).
Proof.
  intros e.
  assert (pc_safe e) as Hsafe.
  { split; [|split].
    - intros id i Hi. apply index_sound in Hi.
      by apply lookup_lt_Some in Hi.
    - repeat constructor; intros H; vm_compute in H; discriminate.
    - exists 2. split; [reflexivity|simpl; lia]. }
  destruct (pc_stays_in_range 5 e Hsafe) as (Hnext & _ & _ & Hbtn).
  split; [split; [reflexivity|exact Hsafe]|].
  split; [split; [reflexivity|exact Hnext]|].
  split; [split; [reflexivity|exact (proj1 (Hbtn 0))]|].
  exact (proj2 (Hbtn 1)).
Defined.

(** ** What a run never writes *)

Lemma fire_same_program fuel e :
  script (state_of (fire fuel e)) = script e
  ∧ labels (state_of (fire fuel e)) = labels e
  ∧ transition (state_of (fire fuel e)) = transition e
  ∧ resources (state_of (fire fuel e)) = resources e.
Proof.
  unfold fire. destruct (timers e) as [|[d k] q]; [done|].
  assert (∀ e0, script (state_of (next fuel e0)) = script e0
                ∧ labels (state_of (next fuel e0)) = labels e0
                ∧ transition (state_of (next fuel e0)) = transition e0
                ∧ resources (state_of (next fuel e0)) = resources e0)
    as Hnext.
  { intros e0. by destruct (next_same_program fuel e0) as (?&?&?&?&?). }
  destruct k as [|text i cb]; simpl.
  - apply (Hnext (set_timers q (set_now d e))).
  - unfold tick, run_callback, setTimeout.
    repeat case_match; simpl; try done.
    apply (Hnext (set_timers q (set_now d e))).
Qed.

(** X3. A run never writes the script, the label index, the resource
    tables or the configured transition delay: they are the same after
    [next], a timer turn, an advance click and a choice selection. *)
Theorem run_keeps_program (fuel : nat) (e : engine) :
  let unchanged e' :=
    script e' = script e ∧ labels e' = labels e
    ∧ transition e' = transition e ∧ resources e' = resources e in
  unchanged (state_of (next fuel e))
  ∧ unchanged (state_of (fire fuel e))
  ∧ unchanged (state_of (_onClick fuel e))
  ∧ ∀ i, unchanged (state_of (choose fuel i e)).
Proof.
  assert (∀ e0, script (state_of (next fuel e0)) = script e0
                ∧ labels (state_of (next fuel e0)) = labels e0
                ∧ transition (state_of (next fuel e0)) = transition e0
                ∧ resources (state_of (next fuel e0)) = resources e0)
    as Hnext.
  { intros e0. by destruct (next_same_program fuel e0) as (?&?&?&?&?). }
  cbv zeta. split; [apply Hnext|]. split; [apply fire_same_program|]. split.
  - unfold _onClick. destruct (choiceBox e); [apply Hnext|done].
  - intros i. unfold choose.
    destruct (choiceBox e !! i) as [ch|]; [|done].
    unfold jumpToLabel, emit, warn.
    repeat case_match; simpl;
      match goal with
      | |- context [next fuel ?e1] => apply (Hnext e1)
      end.
Qed.

(** ** Instructions that are passed over *)

Lemma set_console_same e : set_console (console e) e = e.
Proof. by destruct e. Qed.

Lemma execute_skipped (this_next : engine → completion) c ws e :
  skipped c = Some ws →
  _execute this_next c e = this_next (set_console (ws ++ console e) e).
Proof.
  destruct c; simpl; try done.
  - unfold _cmdChar, known_char_action.
    destruct (truthy id); simpl.
    + destruct (or_str action "show" =? "show")%string; [done|].
      destruct (or_str action "show" =? "hide")%string; [done|].
      destruct (or_str action "show" =? "setState")%string; [done|].
      by intros [= <-].
    + intros [= <-]. simpl. by rewrite set_console_same.
  - intros [= <-]. simpl. by rewrite set_console_same.
  - destruct (truthy to); [done|].
    intros [= <-]. simpl. by rewrite set_console_same.
  - by intros [= <-].
  - intros [= <-]. simpl. by rewrite set_console_same.
  - intros [= <-]. simpl. by rewrite set_console_same.
Qed.

Lemma skip_block (cs : list cmd) (fuel : nat) (e : engine)
    (pre post : list cmd) (log : list warning) :
  running e = true →
  script e = pre ++ cs ++ post →
  pc e = length pre →
  skip_log cs (console e) = Some log →
  next (length cs + fuel) e
  = next fuel (set_console log (set_pc (length pre + length cs) e)).
Proof.
  revert e pre. induction cs as [|c cs IH]; intros e pre Hrun Hscr Hpc Hlog.
  - simpl in *. injection Hlog as <-. f_equal.
    rewrite Nat.add_0_r, <- Hpc. by destruct e.
  - simpl in Hlog. destruct (skipped c) as [ws|] eqn:Hc; [|done].
    change (length (c :: cs) + fuel) with (S (length cs + fuel)).
    rewrite (next_fetch _ _ (length pre) c); [|done|done|].
    2:{ rewrite Hscr. rewrite lookup_app_r by lia.
        by rewrite Nat.sub_diag. }
    rewrite (execute_skipped _ c ws) by done.
    rewrite (IH _ (pre ++ [c])); simpl; try done.
    + f_equal. engine_eq. rewrite length_app. simpl. f_equal. lia.
    + rewrite Hscr. by rewrite <- app_assoc.
    + rewrite length_app. simpl. f_equal. lia.
Qed.

(** X4. A block of instructions that need no display (labels, entries
    without or with an unknown type, a [jump] without target, a [char]
    without id or with an unknown action) is passed over within one call
    of [next]: [pc] ends up behind the block, the warnings of the block are
    logged in order, nothing else changes, and the run goes on from there. *)
Theorem next_skips_block (cs : list cmd) (fuel : nat) (e : engine)
    (pre post : list cmd) (log : list warning) :
  running e = true →
  script e = pre ++ cs ++ post →
  pc e = length pre →
  skip_log cs (console e) = Some log →
  next (length cs + fuel) e
  = next fuel (set_console log (set_pc (length pre + length cs) e)).
Proof.
  intros Hrun Hscr Hpc Hlog.
  by apply (skip_block cs fuel e pre post log).
Qed.

Lemma next_skips_block_witness :
  let scr := [Label "a"; Unknown "fade"; Jump ""; Wait None] in
  let e := set_running true (set_script scr (GalEngine 300)) in
  next (3 + 1) e = next 1 (set_console [UnknownCmd "fade"] (set_pc (0 + 3) e)).
Proof.
  intros scr e.
  apply (next_skips_block [Label "a"; Unknown "fade"; Jump ""] 1 e
           [] [Wait None] [UnknownCmd "fade"]); reflexivity.
Defined.

(** X5. A script without [null] entries that is made of such instructions
    only (the empty script included) is run to its end by [start] itself:
    the engine comes back stopped, with the labels indexed, [pc] at the end
    of the script and nothing scheduled that was not scheduled before. *)
Theorem start_runs_through (scr : list cmd) (fuel : nat) (e : engine)
    (log : list warning) :
  existsb is_null scr = false →
  skip_log scr (console e) = Some log →
  start (length scr + S fuel) scr e
  = Returned
      (set_running false
         (set_console log
            (set_pc (length scr)
               (set_running true
                  (set_pc 0
                     (set_labels (foldl index_entry ∅ (imap pair scr))
                        (set_script scr e))))))).
Proof.
  intros Hnull Hlog. unfold start.
  rewrite indexLabels_returns by done. cbn [and_then].
  rewrite (skip_block scr (S fuel) _ [] [] log);
    [|reflexivity|simpl; by rewrite app_nil_r|reflexivity|exact Hlog].
  rewrite next_S. unfold at_end. simpl.
  by destruct (Nat.leb_spec (length scr) (length scr)); [|lia].
Qed.

Lemma start_runs_through_witness :
  start (2 + 1) [Label "a"; Unknown "fade"] (GalEngine 300)
  = Returned
      (set_running false
         (set_console [UnknownCmd "fade"]
            (set_pc 2
               (set_running true
                  (set_pc 0
                     (set_labels
                        (foldl index_entry ∅
                           (imap pair [Label "a"; Unknown "fade"]))
                        (set_script [Label "a"; Unknown "fade"]
                           (GalEngine 300)))))))).
Proof.
  apply (start_runs_through [Label "a"; Unknown "fade"] 0 (GalEngine 300)
           [UnknownCmd "fade"]); reflexivity.
Defined.

(** ** A script with a [null] entry *)

(** X17. [start] on a script with a [null] or [undefined] entry throws
    while the labels are indexed, before [pc] and the running flag are
    set: the script is stored, the labels in front of the entry are
    indexed, and nothing is run. The dispatcher, for its part, passes over
    such an entry. *)
Theorem start_throws_on_null_entry (fuel : nat) (scr : list cmd)
    (e : engine) :
  existsb is_null scr = true →
  let e' := set_labels (foldl index_entry ∅ (imap pair (before_null scr)))
              (set_script scr e) in
  start fuel scr e = Threw e'
  ∧ pc e' = pc e ∧ running e' = running e
  ∧ timers e' = timers e ∧ textContent e' = textContent e
  ∧ ∀ this_next e0, _execute this_next Null e0 = this_next e0.
Proof.
  intros Hnull e'. split; [|done].
  unfold start, _indexLabels. simpl script. by rewrite Hnull.
Qed.

Lemma start_throws_on_null_entry_witness :
  let scr := [Label "a"; Null; Label "b"; End] in
  ∃ e', start 5 scr (GalEngine 300) = Threw e'
        ∧ labels e' !! "a" = Some 0 ∧ labels e' !! "b" = None
        ∧ pc e' = 0 ∧ running e' = false.
Proof.
  intros scr.
  destruct (start_throws_on_null_entry 5 scr (GalEngine 300) eq_refl)
    as (Hstart & Hpc & Hrun & _).
  eexists. split; [exact Hstart|].
  split; [reflexivity|]. split; [reflexivity|].
  split; [exact Hpc|exact Hrun].
Defined.

(** ** A jump that loops *)

(** X6. A [jump] whose target is indexed at the offset right before the
    jump itself comes back to itself without ever yielding: the call never
    returns, for any depth of the stack it ends in stack exhaustion, having
    written nothing but [pc], which is left at the jump or right behind
    it. *)
Theorem jump_to_itself_never_returns (fuel : nat) (e : engine)
    (to : string) (i : nat) :
  running e = true →
  pc e = S i →
  script e !! S i = Some (Jump to) →
  truthy to = true →
  labels e !! to = Some i →
  ∃ v, next fuel e = Overflow (set_pc v e)
       ∧ (v = S i ∨ v = S (S i)).
Proof.
  intros Hrun Hpc Hjump Hto Hlbl.
  exists (S i). split; [|by left].
  replace (set_pc (S i) e) with e by (rewrite <- Hpc; by destruct e).
  induction fuel as [|fuel IH]; [done|].
  rewrite (next_fetch _ _ (S i) (Jump to)) by done.
  simpl. rewrite Hto. unfold jumpToLabel. simpl. rewrite Hlbl.
  replace (set_pc (S i) (set_pc (S (S i)) e)) with e; [done|].
  engine_eq.
Qed.

Lemma jump_to_itself_never_returns_witness :
  let e := set_pc 1 (set_running true
             (state_of (_indexLabels (set_script [Label "top"; Jump "top"]
                                        (GalEngine 300))))) in
  ∃ v, next 100 e = Overflow (set_pc v e) ∧ (v = 1 ∨ v = 2).
Proof.
  intros e.
  apply (jump_to_itself_never_returns 100 e "top" 0); reflexivity.
Defined.

(** ** After the end *)

Lemma next_stays_stopped fuel e :
  running e = false → state_of (next fuel e) = e.
Proof.
  intros Hrun. destruct fuel; [done|]. by rewrite next_not_running.
Qed.

(** X7. Nothing but [start] sets the running flag: once the run has ended
    or was stopped it stays so through every later call of [next], timer
    turn, advance click and choice selection; [next] and an advance click
    then leave the whole state as it is. *)
Theorem ended_is_final (fuel : nat) (e : engine) :
  running e = false →
  state_of (next fuel e) = e
  ∧ state_of (_onClick fuel e) = e
  ∧ running (state_of (fire fuel e)) = false
  ∧ ∀ i, running (state_of (choose fuel i e)) = false.
Proof.
  intros Hrun. split; [by apply next_stays_stopped|]. split; [|split].
  - unfold _onClick. destruct (choiceBox e); [|done].
    by apply next_stays_stopped.
  - unfold fire. destruct (timers e) as [|[d k] q]; [done|].
    destruct k as [|text j cb]; simpl.
    + by rewrite next_stays_stopped.
    + unfold tick, run_callback, setTimeout.
      repeat case_match; simpl; try done.
      by rewrite next_stays_stopped.
  - intros i. unfold choose.
    destruct (choiceBox e !! i) as [ch|]; [|done].
    unfold jumpToLabel, emit, warn.
    repeat case_match; simpl; by rewrite next_stays_stopped.
Qed.

Lemma ended_is_final_witness :
  let e := stop (state_of (start 5 a_bcde (GalEngine 300))) in
  state_of (next 5 e) = e
  ∧ state_of (_onClick 5 e) = e
  ∧ running (state_of (fire 5 e)) = false
  ∧ ∀ i, running (state_of (choose 5 i e)) = false.
Proof. intros e. apply (ended_is_final 5 e). reflexivity. Defined.

(** ** The typewriter, tick by tick *)

Lemma reveal_progress (j : nat) fuel text i cb e d :
  i + S j ≤ String.length text →
  timers e = [(d, KTick text i cb)] →
  turns (S j) fuel e
  = set_timers [(d + 16 * S j, KTick text (i + S j) cb)]
      (set_now (d + 16 * j)
         (set_textContent (String.substring 0 (i + S j) text) e)).
Proof.
  revert i e d. induction j as [|j IH]; intros i e d Hij Hq.
  - cbn [turns]. unfold fire. rewrite Hq. cbn [run_closure]. unfold tick.
    destruct (Nat.leb_spec (String.length text) i); [lia|].
    cbn [state_of]. unfold setTimeout. apply engine_ext; fields;
      cbn [enqueue];
      first [done | lia | f_equal; lia | do 3 f_equal; lia].
  - change (turns (S (S j)) fuel e)
      with (turns (S j) fuel (state_of (fire fuel e))).
    unfold fire. rewrite Hq. cbn [run_closure]. unfold tick.
    destruct (Nat.leb_spec (String.length text) i); [lia|].
    cbn [state_of]. rewrite (IH (S i) _ (d + 16)); [|lia|reflexivity].
    replace (S i + S j) with (i + S (S j)) by lia.
    replace (d + 16 + 16 * S j) with (d + 16 * S (S j)) by lia.
    replace (d + 16 + 16 * j) with (d + 16 * S j) by lia.
    unfold setTimeout. by apply engine_ext; fields.
Qed.

(** X8. The typewriter shows one more character per tick: started on a
    text with nothing else pending, it has the first [j + 1] characters on
    display after [j] timer turns ([j] less than the length), with its next
    tick due 16 ms later; the callback has not run yet and the interpreter
    state is untouched. *)
Theorem typewriter_shows_prefixes (j : nat) (fuel : nat) (text : string)
    (cb : say_callback) (e : engine) :
  timers e = [] →
  j < String.length text →
  let e' := turns j fuel (state_of (_typeText (next fuel) text cb e)) in
  textContent e' = String.substring 0 (S j) text
  ∧ timers e' = [(now e + 16 * S j, KTick text (S j) cb)]
  ∧ choiceBox e' = []
  ∧ pc e' = pc e ∧ running e' = running e
  ∧ _waitingForClick e' = _waitingForClick e
  ∧ console e' = console e.
Proof.
  intros Hq Hj e'.
  assert (state_of (_typeText (next fuel) text cb e)
          = setTimeout (KTick text 1 cb) 16
              (set_textContent (String.substring 0 1 text)
                 (set_textContent "" (set_choiceBox [] e)))) as Hstart.
  { unfold _typeText, tick. destruct text; [simpl in Hj; lia|done]. }
  subst e'. rewrite Hstart. destruct j as [|j].
  - cbn [turns]. simpl. rewrite Hq.
    repeat split; try (do 2 f_equal; lia).
  - rewrite (reveal_progress j fuel text 1 cb _ (now e + 16));
      [|lia|simpl; by rewrite Hq].
    simpl. repeat split; try (do 2 f_equal; lia).
Qed.

Lemma typewriter_shows_prefixes_witness :
  let e' := turns 2 5 (state_of (_typeText (next 5) "hello"
                                   (SayDone false false) (GalEngine 300))) in
  textContent e' = String.substring 0 3 "hello"
  ∧ timers e' = [(0 + 16 * 3, KTick "hello" 3 (SayDone false false))]
  ∧ choiceBox e' = []
  ∧ pc e' = 0 ∧ running e' = false
  ∧ _waitingForClick e' = false
  ∧ console e' = [].
Proof.
  apply (typewriter_shows_prefixes 2 5 "hello" (SayDone false false)
           (GalEngine 300)).
  - reflexivity.
  - simpl. lia.
Defined.

(** X9. [stop] does not stop the typewriter: the ticks do not look at the
    running flag, so a reveal in flight when the run is stopped still shows
    the whole text and its callback still runs (raising [_waitingForClick]
    when no choice follows); only the interpreter stays where it was. *)
Theorem stop_keeps_reveal_going (k : nat) (fuel : nat) (text : string)
    (i : nat) (cb : say_callback) (d : nat) (e : engine) :
  timers e = [(d, KTick text i cb)] →
  i + k = String.length text →
  let e' := turns (S k) (S fuel) (stop e) in
  textContent e' = match k with 0 => textContent e | S _ => text end
  ∧ timers e' = []
  ∧ running e' = false ∧ pc e' = pc e
  ∧ _waitingForClick e'
    = match cb with
      | SayDone true _ => _waitingForClick e
      | SayDone false _ => true
      end.
Proof.
  intros Hq Hik e'. subst e'.
  rewrite (reveal_turns k (S fuel) text i cb (stop e) d Hik Hq).
  destruct cb as [[] []]; cbn [run_callback];
    try rewrite next_not_running by done;
    simpl; by repeat split.
Qed.

Lemma stop_keeps_reveal_going_witness :
  let e := state_of (start 5 a_bcde (GalEngine 300)) in
  let e' := turns 1 5 (stop e) in
  textContent e' = textContent e
  ∧ timers e' = []
  ∧ running e' = false ∧ pc e' = pc e
  ∧ _waitingForClick e' = true.
Proof.
  intros e.
  apply (stop_keeps_reveal_going 0 4 "a" 1 (SayDone false false) 16 e);
    reflexivity.
Defined.

(** ** Waiting for an advance *)



(** ** Timeouts, once set *)

Ltac sets_case Hnext :=
  first
    [ match goal with
      | |- context [state_of (?nx ?e1)] => by apply (Hnext e1)
      end
    | by (split; [done|left])
    | split; [done|]; right; by eexists _, _ ].

Lemma execute_sets (this_next : engine → completion) c e :
  (∀ e0, sets_at_most_one e0 (state_of (this_next e0))) →
  sets_at_most_one e (state_of (_execute this_next c e)).
Proof.
  intros Hnext. unfold sets_at_most_one in *.
  destruct c; simpl; break_handlers; sets_case Hnext.
Qed.

Lemma next_sets fuel e : sets_at_most_one e (state_of (next fuel e)).
Proof.
  revert e. induction fuel as [|fuel IH]; intros e.
  - by (split; [done|left]).
  - rewrite next_S.
    destruct (running e); cbn [negb]; [|by (split; [done|left])].
    destruct (at_end e); [by (split; [done|left])|].
    rewrite advanced_eq.
    by apply (execute_sets (next fuel) _ (set_pc _ e)).
Qed.

Lemma fire_sets fuel e d0 k0 rest :
  timers e = (d0, k0) :: rest →
  now (state_of (fire fuel e)) = d0
  ∧ (timers (state_of (fire fuel e)) = rest
     ∨ ∃ δ k, timers (state_of (fire fuel e)) = enqueue (d0 + δ, k) rest).
Proof.
  intros Hq. unfold fire. rewrite Hq.
  pose proof (next_sets fuel) as Hnext. unfold sets_at_most_one in Hnext.
  destruct k0 as [|text i cb]; simpl.
  - by apply (Hnext (set_timers rest (set_now d0 e))).
  - unfold tick. break_handlers; sets_case Hnext.
Qed.

Lemma enqueue_sublist t q : q `sublist_of` enqueue t q.
Proof.
  destruct (enqueue_cons_queue t q) as (q1 & q2 & -> & -> & _).
  apply sublist_app; [done|]. by apply sublist_cons.
Qed.

Lemma sets_sublist e e' :
  sets_at_most_one e e' → timers e `sublist_of` timers e'.
Proof.
  intros [_ [->|(δ & k & ->)]]; [done|apply enqueue_sublist].
Qed.

(** X11. The engine never cancels a timeout: every timeout that is pending
    is still pending, in the same order, after [next], an advance click, a
    choice selection, [start] and [stop]; a timer turn takes off the one it
    fires and no other. *)
Theorem timeouts_are_never_cancelled (fuel : nat) (e : engine) :
  timers e `sublist_of` timers (state_of (next fuel e))
  ∧ timers e `sublist_of` timers (state_of (_onClick fuel e))
  ∧ (∀ i, timers e `sublist_of` timers (state_of (choose fuel i e)))
  ∧ (∀ scr, timers e `sublist_of` timers (state_of (start fuel scr e)))
  ∧ timers (stop e) = timers e
  ∧ tail (timers e) `sublist_of` timers (state_of (fire fuel e)).
Proof.
  repeat apply conj.
  - apply sets_sublist, next_sets.
  - unfold _onClick. destruct (choiceBox e); [|done].
    apply sets_sublist, next_sets.
  - intros i. unfold choose.
    destruct (choiceBox e !! i) as [ch|]; [|done].
    unfold jumpToLabel, emit, warn.
    repeat case_match;
      match goal with
      | |- context [next fuel ?e1] =>
          apply (sets_sublist e1), next_sets
      end.
  - intros scr. unfold start, _indexLabels.
    destruct (existsb is_null _); cbn [and_then]; [done|].
    match goal with
    | |- context [next fuel ?e1] => apply (sets_sublist e1), next_sets
    end.
  - done.
  - destruct (timers e) as [|[d k] q] eqn:Hq.
    + apply sublist_nil_l.
    + destruct (fire_sets fuel e d k q Hq) as [_ [->|(δ & k' & ->)]];
        [done|apply enqueue_sublist].
Qed.

Lemma enqueue_sorted t q :
  StronglySorted (λ u v : nat * closure, u.1 ≤ v.1) q →
  StronglySorted (λ u v : nat * closure, u.1 ≤ v.1) (enqueue t q).
Proof.
  induction 1 as [|u q Hq IH Hu]; simpl.
  - repeat constructor.
  - destruct (Nat.leb_spec u.1 t.1).
    + constructor; [done|].
      destruct (enqueue_cons_queue t q) as (q1 & q2 & Heq & -> & _).
      rewrite Heq in Hu. apply Forall_app in Hu as [Hu1 Hu2].
      apply Forall_app. split; [done|]. by constructor.
    + constructor; [by constructor|].
      constructor; [lia|].
      eapply Forall_impl; [exact Hu|]. simpl. intros. lia.
Qed.

Lemma enqueue_not_overdue n δ k q :
  Forall (λ u : nat * closure, n ≤ u.1) q →
  Forall (λ u : nat * closure, n ≤ u.1) (enqueue (n + δ, k) q).
Proof.
  intros Hq.
  destruct (enqueue_cons_queue (n + δ, k) q) as (q1 & q2 & Heq & -> & _).
  rewrite Heq in Hq. apply Forall_app in Hq as [H1 H2].
  apply Forall_app. split; [done|]. constructor; [simpl; lia|done].
Qed.

Lemma sets_queue_ok e e' :
  sets_at_most_one e e' → queue_ok e → queue_ok e'.
Proof.
  intros [Hnow Hq] [Hsorted Hdue]. unfold queue_ok. rewrite Hnow.
  destruct Hq as [->|(δ & k & ->)]; [done|].
  split; [by apply enqueue_sorted|by apply enqueue_not_overdue].
Qed.

(** X12. The queue of timeouts stays in firing order with nothing overdue
    through [next], advance clicks, choice selections and timer turns, and
    so the clock, which a timer turn sets to the due time of the timeout it
    fires, never runs backwards. *)
Theorem queue_stays_ordered (fuel : nat) (e : engine) :
  queue_ok e →
  queue_ok (state_of (next fuel e))
  ∧ queue_ok (state_of (_onClick fuel e))
  ∧ (∀ i, queue_ok (state_of (choose fuel i e)))
  ∧ queue_ok (state_of (fire fuel e))
  ∧ now e ≤ now (state_of (fire fuel e)).
Proof.
  intros Hok. split; [|split; [|split; [|split]]].
  - apply (sets_queue_ok e); [apply next_sets|exact Hok].
  - unfold _onClick. destruct (choiceBox e); [|exact Hok].
    apply (sets_queue_ok e); [apply next_sets|exact Hok].
  - intros i. unfold choose.
    destruct (choiceBox e !! i) as [ch|]; [|exact Hok].
    unfold jumpToLabel, emit, warn.
    repeat case_match;
      match goal with
      | |- context [next fuel ?e1] =>
          apply (sets_queue_ok e1); [apply next_sets|exact Hok]
      end.
  - destruct Hok as [Hsorted Hdue].
    destruct (timers e) as [|[d k] q] eqn:Hq.
    + unfold fire. rewrite Hq. unfold queue_ok. simpl. rewrite Hq.
      split; constructor.
    + inversion Hsorted as [|? ? Hsorted' Hhead]; subst.
      destruct (fire_sets fuel e d k q Hq) as [Hnow Hrest].
      unfold queue_ok. rewrite Hnow.
      destruct Hrest as [->|(δ & k' & ->)].
      * done.
      * split; [by apply enqueue_sorted|by apply enqueue_not_overdue].
  - destruct Hok as [_ Hdue].
    destruct (timers e) as [|[d k] q] eqn:Hq.
    + unfold fire. by rewrite Hq.
    + destruct (fire_sets fuel e d k q Hq) as [-> _].
      by inversion Hdue.
Qed.

Lemma queue_stays_ordered_witness :
  let e := state_of (_onClick 5 (state_of (start 5 a_bcde (GalEngine 300)))) in
  queue_ok (state_of (next 5 e))
  ∧ queue_ok (state_of (_onClick 5 e))
  ∧ (∀ i, queue_ok (state_of (choose 5 i e)))
  ∧ queue_ok (state_of (fire 5 e))
  ∧ now e ≤ now (state_of (fire 5 e)).
Proof.
  intros e. apply (queue_stays_ordered 5 e).
  split; vm_compute; repeat constructor.
Defined.

(** ** The logs are only written *)

Lemma forget_logs_eq e1 e2 :
  forget_logs e1 = forget_logs e2 →
  e1 = set_port (port e1) (set_console (console e1) e2).
Proof.
  destruct e1, e2. unfold forget_logs, set_port, set_console. simpl.
  intros [= -> -> -> -> -> -> -> -> -> -> -> -> -> -> -> ->]. done.
Qed.

Ltac logs_case Hnext :=
  lazymatch goal with
  | |- same_upto_logs (Returned _) (Returned _) =>
      unfold same_upto_logs, forget_logs; engine_eq
  | |- same_upto_logs (Threw _) (Threw _) =>
      unfold same_upto_logs, forget_logs; engine_eq
  | |- forget_logs _ = forget_logs _ =>
      unfold forget_logs; engine_eq
  | |- same_upto_logs (?nx ?a) (?nx ?b) =>
      apply Hnext; unfold forget_logs; engine_eq
  end.

Lemma execute_logs_blind (this_next : engine → completion) c e1 e2 :
  (∀ a b, forget_logs a = forget_logs b →
          same_upto_logs (this_next a) (this_next b)) →
  forget_logs e1 = forget_logs e2 →
  same_upto_logs (_execute this_next c e1) (_execute this_next c e2).
Proof.
  intros Hnext He. rewrite (forget_logs_eq _ _ He).
  generalize (console e1) (port e1). intros l r.
  destruct c; simpl; unfold_handlers;
    repeat match goal with
           | |- context [match ?x with _ => _ end] => is_var x; destruct x
           end;
    fields; repeat (case_match; fields); completion_eqs;
    logs_case Hnext.
Qed.

Lemma next_logs_blind fuel e1 e2 :
  forget_logs e1 = forget_logs e2 →
  same_upto_logs (next fuel e1) (next fuel e2).
Proof.
  revert e1 e2. induction fuel as [|fuel IH]; intros e1 e2 He; [done|].
  rewrite !next_S. rewrite (forget_logs_eq _ _ He).
  unfold at_end, fetched, advanced, script_at_pc. fields.
  destruct (running e2); cbn [negb].
  - destruct (pc e2) as [p| |].
    + destruct (length (script e2) <=? p).
      * unfold same_upto_logs, forget_logs. engine_eq.
      * apply execute_logs_blind; [done|].
        unfold forget_logs. engine_eq.
    + apply execute_logs_blind; [done|].
      unfold forget_logs. engine_eq.
    + apply execute_logs_blind; [done|].
      unfold forget_logs. engine_eq.
  - unfold same_upto_logs, forget_logs. engine_eq.
Qed.

(** X13. The console and the request log are write-only: two engines that
    differ at most in these two logs take the same path through [next], a
    timer turn, an advance click and a choice selection, and end in states
    that again differ at most in the logs. *)
Theorem logs_are_never_read (fuel : nat) (e1 e2 : engine) :
  forget_logs e1 = forget_logs e2 →
  same_upto_logs (next fuel e1) (next fuel e2)
  ∧ same_upto_logs (fire fuel e1) (fire fuel e2)
  ∧ same_upto_logs (_onClick fuel e1) (_onClick fuel e2)
  ∧ ∀ i, same_upto_logs (choose fuel i e1) (choose fuel i e2).
Proof.
  intros He. split; [by apply next_logs_blind|].
  rewrite (forget_logs_eq _ _ He).
  generalize (console e1) (port e1). intros l r.
  split; [|split].
  - unfold fire. fields.
    destruct (timers e2) as [|[d k] q];
      [unfold same_upto_logs, forget_logs; engine_eq|].
    destruct k as [|text i cb]; simpl.
    + apply next_logs_blind. unfold forget_logs. engine_eq.
    + unfold tick, run_callback, setTimeout. fields.
      repeat (case_match; fields);
        first [ apply next_logs_blind; unfold forget_logs; engine_eq
              | unfold same_upto_logs, forget_logs; engine_eq ].
  - unfold _onClick. fields. destruct (choiceBox e2).
    + apply next_logs_blind. unfold forget_logs. engine_eq.
    + unfold same_upto_logs, forget_logs. engine_eq.
  - intros i. unfold choose. fields.
    destruct (choiceBox e2 !! i) as [ch|];
      [|unfold same_upto_logs, forget_logs; engine_eq].
    unfold jumpToLabel, emit, warn. fields.
    repeat (case_match; fields);
      apply next_logs_blind; unfold forget_logs; engine_eq; congruence.
Qed.

Lemma logs_are_never_read_witness :
  let e2 := state_of (start 5 a_bcde (GalEngine 300)) in
  let e1 := emit AudioPause (warn BgmPlayFailed e2) in
  same_upto_logs (next 5 e1) (next 5 e2)
  ∧ same_upto_logs (fire 5 e1) (fire 5 e2)
  ∧ same_upto_logs (_onClick 5 e1) (_onClick 5 e2)
  ∧ ∀ i, same_upto_logs (choose 5 i e1) (choose 5 i e2).
Proof.
  intros e2 e1. apply (logs_are_never_read 5 e1 e2).
  vm_compute. reflexivity.
Defined.

(** ** Characters that are not defined *)



(** ** Resource tables *)



(** ** Selecting a choice *)

Lemma choose_chosen fuel i e ch :
  choiceBox e !! i = Some ch →
  choose fuel i e
  = if truthy (goto ch) then next fuel (jumpToLabel (goto ch) (chosen ch e))
    else next fuel (chosen ch e).
Proof.
  intros Hch. unfold choose, chosen. rewrite Hch.
  by destruct (callback ch).
Qed.

Lemma inherited_truthy id : inherited id = true → truthy id = true.
Proof. by destruct id. Qed.

(** X16. The click listener of a choice button removes the buttons and
    resolves the choice's [goto] like a [jump]: with an indexed label the
    instruction right after the label is executed next; with a label that
    is neither indexed nor the name of a member the index inherits a
    warning is logged and the run goes on with the next sequential
    instruction, as it does when the choice has no [goto]; with a label
    the index only inherits, [pc] is left without a number and the listener
    does not return. The click then bubbles to the container, whose
    listener [_onClick] runs on the state the button's listener has left:
    unless buttons are on display again, the same click executes a second
    instruction. *)
Theorem choice_goto_resolves (fuel : nat) (i : nat) (ch : choice)
    (e : engine) :
  running e = true →
  choiceBox e !! i = Some ch →
  choiceBox (chosen ch e) = []
  ∧ (∀ k c, truthy (goto ch) = true →
            labels e !! goto ch = Some k →
            script e !! S k = Some c →
            choose (S fuel) i e
            = _execute (next fuel) c (set_pc (S (S k)) (chosen ch e)))
  ∧ (truthy (goto ch) = true →
     labels e !! goto ch = None →
     inherited (goto ch) = false →
     choose fuel i e
     = next fuel (warn (LabelNotFound (goto ch)) (chosen ch e)))
  ∧ (labels e !! goto ch = None →
     inherited (goto ch) = true →
     choose fuel i e
     = Overflow (set_pc (lost fuel (PcText (goto ch))) (chosen ch e)))
  ∧ (truthy (goto ch) = false →
     choose fuel i e = next fuel (chosen ch e))
  ∧ click_button fuel i e = _onClick fuel (state_of (choose fuel i e))
  ∧ (choiceBox (state_of (choose fuel i e)) = [] →
     click_button fuel i e = next fuel (state_of (choose fuel i e))).
Proof.
  intros Hrun Hch.
  assert (labels (chosen ch e) = labels e ∧ script (chosen ch e) = script e
          ∧ running (chosen ch e) = running e) as (Hl & Hs & Hr).
  { unfold chosen. by destruct (callback ch). }
  split; [unfold chosen; by destruct (callback ch)|].
  split; [|split; [|split; [|split; [|split]]]].
  - intros k c Hto Hk Hc.
    rewrite (choose_chosen _ _ _ ch Hch), Hto.
    unfold jumpToLabel. rewrite Hl, Hk.
    rewrite (next_fetch _ _ (S k) c); simpl; [|congruence|done|by rewrite Hs].
    reflexivity.
  - intros Hto Hk Hinh.
    rewrite (choose_chosen _ _ _ ch Hch), Hto.
    unfold jumpToLabel. by rewrite Hl, Hk, Hinh.
  - intros Hk Hinh.
    rewrite (choose_chosen _ _ _ ch Hch), (inherited_truthy _ Hinh).
    unfold jumpToLabel. rewrite Hl, Hk, Hinh.
    rewrite next_lost; simpl; [|congruence|done].
    by rewrite set_pc_twice.
  - intros Hto. by rewrite (choose_chosen _ _ _ ch Hch), Hto.
  - unfold click_button. by rewrite Hch.
  - intros Hbox. unfold click_button, _onClick. by rewrite Hch, Hbox.
Qed.

Lemma choice_goto_resolves_witness :
  let scr := [Choice two_buttons; Label "go"; Wait None; End] in
  let e := state_of (start 5 scr (GalEngine 300)) in
  let ch := mkChoice "yes" "go" None in
  running e = true ∧ choiceBox e !! 0 = Some ch
  ∧ choose 5 0 e
    = _execute (next 4) (Wait None) (set_pc 3 (chosen ch e))
  ∧ click_button 5 0 e = next 5 (state_of (choose 5 0 e))
  ∧ timers (state_of (click_button 5 0 e)) = [(500, KNext)]
  ∧ running (state_of (click_button 5 0 e)) = false.
Proof.
  intros scr e ch.
  split; [reflexivity|]. split; [reflexivity|].
  destruct (choice_goto_resolves 4 0 ch e eq_refl eq_refl)
    as (_ & Hgo & _).
  destruct (choice_goto_resolves 5 0 ch e eq_refl eq_refl)
    as (_ & _ & _ & _ & _ & _ & Hbubble).
  split; [apply (Hgo 1 (Wait None)); reflexivity|].
  split; [apply Hbubble; reflexivity|].
  rewrite Hbubble by reflexivity.
  split; vm_compute; reflexivity.
Defined.
